(** * monocypher-py: the envelope and protocol composition layer

    A shallow embedding of [monocypher/public.py] and
    [monocypher/utils/crypto_cmp.py], together with the parts of the package
    they call ([monocypher.utils], [monocypher.secret], [monocypher.pwhash]),
    and the properties of the composition layer proved over it.

    Byte strings are lists of bytes, Python exceptions are an error monad,
    the CSPRNG is an explicit entropy tape threaded through the calls that
    draw from it, and the C library reached through cffi ([lib]) is an
    interface: a class of byte-in/byte-out functions with the contract its
    header declares. *)

From Stdlib Require Import String.
From Stdlib Require Import List Arith ZArith NArith Lia Bool.
From Stdlib Require Import Strings.Byte.
Import ListNotations.

Set Implicit Arguments.

(* ================================================================== *)
(** * Byte strings and exceptions *)

Definition bytes := list byte.

(** Python's [bytes(n)]: [n] zero bytes. *)
Definition zeros (n : nat) : bytes := repeat x00 n.

Definition bytes_eq_dec : forall a b : bytes, {a = b} + {a <> b} :=
  list_eq_dec byte_eq_dec.

(** The exceptions the layer raises.  [TypeError] and [RuntimeError] are
    raised by [public.py] itself; the other kinds are the error taxonomy of
    the modules it calls. *)
Inductive exception : Set :=
| TypeError
| RuntimeError
| InvalidLength
| InvalidParameter
| MalformedMessage
| MissingNonce
| AuthenticationFailed.

(** [CryptoError]: what [tests/test_secret.py] expects of a decryption
    without a nonce or without a MAC, and what the docstring of
    [SealedBox.decrypt] announces for a failed decryption. *)
Definition is_CryptoError (e : exception) : bool :=
  match e with
  | MalformedMessage | MissingNonce | AuthenticationFailed => true
  | _ => false
  end.

Inductive result (A : Type) : Type :=
| Ok (a : A)
| Raise (e : exception).

Arguments Ok {A} a.
Arguments Raise {A} e.

Definition bind {A B} (r : result A) (k : A -> result B) : result B :=
  match r with
  | Ok a => k a
  | Raise e => Raise e
  end.

Declare Scope py_scope.
Delimit Scope py_scope with py.
Open Scope py_scope.

Notation "x <- c ;; k" := (bind c (fun x => k))
  (at level 61, c at next level, right associativity) : py_scope.
Notation "c ;;; k" := (bind c (fun _ => k))
  (at level 61, right associativity) : py_scope.

(* ================================================================== *)
(** * The CSPRNG

    [monocypher.utils.random(n)] draws [n] bytes from the system's CSPRNG.
    The generator is an entropy tape: a call reads the next [n] bytes and
    leaves the rest to later calls.  Nothing is assumed of the tape. *)

Definition rng := nat -> byte.

Definition draw (n : nat) (g : rng) : bytes := map g (seq 0 n).
Definition advance (n : nat) (g : rng) : rng := fun i => g (n + i).

(** Computations that may draw from the CSPRNG and may raise. *)
Definition M (A : Type) := rng -> result A * rng.

Definition mret {A} (a : A) : M A := fun g => (Ok a, g).
Definition mraise {A} (e : exception) : M A := fun g => (Raise e, g).
Definition lift {A} (r : result A) : M A := fun g => (r, g).
Definition mbind {A B} (m : M A) (k : A -> M B) : M B :=
  fun g => match m g with
           | (Ok a, g') => k a g'
           | (Raise e, g') => (Raise e, g')
           end.

Notation "x <~ c ;; k" := (mbind c (fun x => k))
  (at level 61, c at next level, right associativity) : py_scope.

(* ================================================================== *)
(** * monocypher.utils *)

Module utils.

(** Modelled from the spec: [ensure] of [monocypher/utils/__init__.py]
    (not among the sources), by its uses in [public.py]:
    [ensure(cond, exc, message)] raises [exc] unless [cond] holds. *)
Definition ensure (cond : bool) (exc : exception) : result unit :=
  if cond then Ok tt else Raise exc.

(** Modelled from the spec: [ensure_bytes_with_length] of
    [monocypher/utils/__init__.py] (not among the sources).  "Inputs of the
    wrong length are a programming error (fails
    with [InvalidLength])"; "length is exactly the declared size at
    construction; construction fails otherwise".  [name] only labels the
    message. *)
Definition ensure_bytes_with_length (name : string) (value : bytes)
    (length : nat) : result unit :=
  ensure (Nat.eqb (List.length value) length) InvalidLength.

(** Modelled from the spec: [random] of [monocypher/utils/__init__.py] (not
    among the sources), "secure random byte generation (assumed to be a
    CSPRNG service)". *)
Definition random (n : nat) : M bytes :=
  fun g => (Ok (draw n g), advance n g).

End utils.

(* ================================================================== *)
(** * monocypher.utils.crypto_cmp *)

Module crypto_cmp.

(** ** The C comparators

    [build_monocypher.py] declares
    [int crypto_verify16(const uint8_t a[16], const uint8_t b[16])] (and 32,
    64) with the contract "Return 0 if a and b are equal, -1 otherwise". *)

Definition byte_diff (x y : byte) : N := N.lxor (Byte.to_N x) (Byte.to_N y).

(** The differences of all the byte pairs, or-ed together: every pair is
    read, whatever the earlier ones gave. *)
Fixpoint accumulate (acc : N) (a b : bytes) : N :=
  match a, b with
  | x :: a', y :: b' => accumulate (N.lor acc (byte_diff x y)) a' b'
  | _, _ => acc
  end.

(** Modelled from the spec: [monocypher.c] is not among the sources.  "A
    boolean equality result computed without early exit on mismatch", over
    the [n] bytes each array is declared to hold. *)
Definition lib_crypto_verify (n : nat) (a b : bytes) : Z :=
  if N.eqb (accumulate 0 (firstn n a) (firstn n b)) 0 then 0%Z else (-1)%Z.

Definition lib_crypto_verify16 := lib_crypto_verify 16.
Definition lib_crypto_verify32 := lib_crypto_verify 32.
Definition lib_crypto_verify64 := lib_crypto_verify 64.

(** ** The calls that cross into the C library

    A comparator returns its result with the list of C comparisons it ran,
    so that "before any comparison executes" is a statement about it. *)

Inductive ffi_call : Type :=
| verify_call (n : nat) (a b : bytes).

Definition traced (A : Type) := (list ffi_call * result A)%type.

Definition tlift {A} (r : result A) : traced A := ([], r).

Definition tcall (n : nat) (f : bytes -> bytes -> Z) (a b : bytes) : traced Z :=
  ([verify_call n a b], Ok (f a b)).

Definition tbind {A B} (t : traced A) (k : A -> traced B) : traced B :=
  match t with
  | (log, Ok a) => let (log', r) := k a in (log ++ log', r)
  | (log, Raise e) => (log, Raise e)
  end.

Notation "x <! c ;; k" := (tbind c (fun x => k))
  (at level 61, c at next level, right associativity) : py_scope.

(** ** The Python wrappers *)

Definition crypto_verify16 (a b : bytes) : traced bool :=
  _ <! tlift (utils.ensure_bytes_with_length "a" a 16) ;;
  _ <! tlift (utils.ensure_bytes_with_length "b" b 16) ;;
  rv <! tcall 16 lib_crypto_verify16 a b ;;
  tlift (Ok (Z.eqb rv 0)).

Definition crypto_verify32 (a b : bytes) : traced bool :=
  _ <! tlift (utils.ensure_bytes_with_length "a" a 32) ;;
  _ <! tlift (utils.ensure_bytes_with_length "b" b 32) ;;
  rv <! tcall 32 lib_crypto_verify32 a b ;;
  tlift (Ok (Z.eqb rv 0)).

Definition crypto_verify64 (a b : bytes) : traced bool :=
  _ <! tlift (utils.ensure_bytes_with_length "a" a 64) ;;
  _ <! tlift (utils.ensure_bytes_with_length "b" b 64) ;;
  rv <! tcall 64 lib_crypto_verify64 a b ;;
  tlift (Ok (Z.eqb rv 0)).

End crypto_cmp.

(* ================================================================== *)
(** * The C library behind cffi

    [build_monocypher.py] declares the functions of [monocypher.h]; their
    code ([monocypher.c]) is a trusted collaborator.  The layer reaches them
    as [lib.f(...)]: here, as the methods of a class.  Output buffers are
    results; [crypto_unlock_aead] returns the plaintext when its [int]
    result is 0 and nothing otherwise. *)

Class Monocypher : Type := {
  (** [crypto_lock_aead(mac[16], cipher_text, key[32], nonce[24], ad,
      plain_text)]: key, nonce, ad, plain text to (mac, cipher text). *)
  crypto_lock_aead : bytes -> bytes -> bytes -> bytes -> bytes * bytes;
  (** [crypto_unlock_aead(plain_text, key[32], nonce[24], mac[16], ad,
      cipher_text)]: key, nonce, mac, ad, cipher text. *)
  crypto_unlock_aead : bytes -> bytes -> bytes -> bytes -> bytes -> option bytes;
  (** [crypto_key_exchange_public_key(your_public_key[32],
      your_secret_key[32])]. *)
  crypto_key_exchange_public_key : bytes -> bytes;
  (** [crypto_x25519(raw_shared_secret[32], your_secret_key[32],
      their_public_key[32])]: the scalar multiplication. *)
  crypto_x25519 : bytes -> bytes -> bytes;
  (** The HChaCha20 step that turns a raw shared secret into a key. *)
  crypto_hchacha20_kdf : bytes -> bytes;
  (** [crypto_argon2i(hash, hash_size, work_area, nb_blocks, nb_iterations,
      password, salt)]: hash_size, nb_blocks, nb_iterations, password,
      salt. *)
  crypto_argon2i : nat -> nat -> nat -> bytes -> bytes -> bytes
}.

(** Modelled from the spec: [lib.crypto_key_exchange], declared under "Key
    exchange (x25519 + HChacha20)"; the shared secret is "computed by scalar
    multiplication followed by a hash-based key-derivation step
    (HChaCha20-style)". *)
Definition derive_shared_secret {lib : Monocypher}
    (my_private their_public : bytes) : bytes :=
  crypto_hchacha20_kdf (crypto_x25519 my_private their_public).

(** The contract of the primitives: the sizes the header declares, that
    unlocking what was locked gives the plain text back, and that the two
    parties of an exchange obtain the same secret. *)
Class MonocypherOk (lib : Monocypher) : Prop := {
  lock_mac_length : forall key nonce ad msg,
    length (fst (crypto_lock_aead key nonce ad msg)) = 16;
  lock_text_length : forall key nonce ad msg,
    length (snd (crypto_lock_aead key nonce ad msg)) = length msg;
  unlock_lock : forall key nonce ad msg,
    length key = 32 -> length nonce = 24 ->
    crypto_unlock_aead key nonce (fst (crypto_lock_aead key nonce ad msg)) ad
      (snd (crypto_lock_aead key nonce ad msg)) = Some msg;
  public_key_length : forall sk,
    length sk = 32 -> length (crypto_key_exchange_public_key sk) = 32;
  x25519_length : forall sk pk,
    length sk = 32 -> length pk = 32 -> length (crypto_x25519 sk pk) = 32;
  hchacha20_length : forall raw,
    length raw = 32 -> length (crypto_hchacha20_kdf raw) = 32;
  x25519_symmetric : forall a b,
    length a = 32 -> length b = 32 ->
    crypto_x25519 a (crypto_key_exchange_public_key b) =
    crypto_x25519 b (crypto_key_exchange_public_key a);
  argon2i_length : forall hash_size nb_blocks nb_iterations password salt,
    length (crypto_argon2i hash_size nb_blocks nb_iterations password salt)
    = hash_size
}.

(* ================================================================== *)
(** * monocypher.utils.crypto_public and monocypher.utils.crypto_aead

    Modelled from the spec: the two wrapper modules are not among the
    sources.  The primitives work "on 32-byte values", with a "24-byte
    nonce, 16-byte MAC, 32-byte key"; malformed input sizes are "detected
    before any primitive call". *)

Module crypto_public.
Section WithLib.
Context {lib : Monocypher}.

(** Modelled from the spec: [crypto_key_exchange_public_key] of
    [monocypher/utils/crypto_public.py] (not among the sources). *)
Definition crypto_key_exchange_public_key (your_secret_key : bytes)
    : result bytes :=
  utils.ensure_bytes_with_length "your_secret_key" your_secret_key 32 ;;;
  Ok (crypto_key_exchange_public_key (Monocypher := lib) your_secret_key).

(** Modelled from the spec: [crypto_key_exchange] of
    [monocypher/utils/crypto_public.py] (not among the sources). *)
Definition crypto_key_exchange (your_secret_key their_public_key : bytes)
    : result bytes :=
  utils.ensure_bytes_with_length "your_secret_key" your_secret_key 32 ;;;
  utils.ensure_bytes_with_length "their_public_key" their_public_key 32 ;;;
  Ok (derive_shared_secret your_secret_key their_public_key).

End WithLib.
End crypto_public.

Module crypto_aead.
Section WithLib.
Context {lib : Monocypher}.

(** Modelled from the spec: the wrapper of [lib.crypto_lock_aead] in
    [monocypher/utils/crypto_aead.py] (not among the sources). *)
Definition crypto_lock (key nonce ad msg : bytes) : result (bytes * bytes) :=
  utils.ensure_bytes_with_length "key" key 32 ;;;
  utils.ensure_bytes_with_length "nonce" nonce 24 ;;;
  Ok (crypto_lock_aead key nonce ad msg).

(** Modelled from the spec: the wrapper of [lib.crypto_unlock_aead] in
    [monocypher/utils/crypto_aead.py] (not among the sources). *)
Definition crypto_unlock (key nonce mac ad ciphertext : bytes)
    : result (option bytes) :=
  utils.ensure_bytes_with_length "key" key 32 ;;;
  utils.ensure_bytes_with_length "nonce" nonce 24 ;;;
  utils.ensure_bytes_with_length "mac" mac 16 ;;;
  Ok (crypto_unlock_aead key nonce mac ad ciphertext).

End WithLib.
End crypto_aead.

(* ================================================================== *)
(** * monocypher.secret

    Modelled from the spec: [monocypher/secret.py] is not among the
    sources; [public.py] and [tests/test_secret.py] use its
    [EncryptedMessage] and [SecretBox]. *)

Module EncryptedMessage.

(** Modelled from the spec: [EncryptedMessage] of [monocypher/secret.py]
    (not among the sources).  "A logical triple (nonce, mac, ciphertext)";
    the headless form has no nonce field. *)
Record t : Type := {
  nonce : option bytes;
  detached_mac : bytes;
  detached_ciphertext : bytes
}.

(** Modelled from the spec: [from_parts], as [tests/test_secret.py] calls
    it, builds the full form from its three parts. *)
Definition from_parts (nonce mac ciphertext : bytes) : t :=
  {| nonce := Some nonce; detached_mac := mac;
     detached_ciphertext := ciphertext |}.

(** Modelled from the spec: [from_full_bytes].  "Slices [data] into
    (nonce, mac, ciphertext); fails with
    [MalformedMessage] if [len(data) < nonce_size + mac_size]". *)
Definition from_full_bytes (nonce_size mac_size : nat) (data : bytes)
    : result t :=
  utils.ensure (nonce_size + mac_size <=? length data) MalformedMessage ;;;
  Ok {| nonce := Some (firstn nonce_size data);
        detached_mac := firstn mac_size (skipn nonce_size data);
        detached_ciphertext := skipn (nonce_size + mac_size) data |}.

(** Modelled from the spec: [from_headless_bytes].  "Slices into (mac,
    ciphertext) with no nonce field; fails if
    [len(data) < mac_size]". *)
Definition from_headless_bytes (mac_size : nat) (data : bytes) : result t :=
  utils.ensure (mac_size <=? length data) MalformedMessage ;;;
  Ok {| nonce := None;
        detached_mac := firstn mac_size data;
        detached_ciphertext := skipn mac_size data |}.

(** Modelled from the spec: the accessor [ciphertext], "mac||payload,
    detachable". *)
Definition ciphertext (m : t) : bytes :=
  detached_mac m ++ detached_ciphertext m.

End EncryptedMessage.

(** Modelled from the spec: what [SecretBox.decrypt] accepts, "either an
    [EncryptedMessage] (nonce embedded)
    or a headless ciphertext". *)
Inductive message : Type :=
| Message (m : EncryptedMessage.t)
| Ciphertext (b : bytes).

Module SecretBox.

Definition KEY_SIZE := 32.
Definition NONCE_SIZE := 24.
Definition MAC_SIZE := 16.

(** Modelled from the spec: [SecretBox] of [monocypher/secret.py] (not
    among the sources).  "State: one symmetric key (32 bytes), immutable
    for the lifetime of
    the box." *)
Record t : Type := { _key : bytes }.

(** Modelled from the spec: [SecretBox.__init__]; "length is exactly the
    declared size at construction; construction fails otherwise". *)
Definition init (key : bytes) : result t :=
  utils.ensure_bytes_with_length "key" key KEY_SIZE ;;;
  Ok {| _key := key |}.

Definition encode (self : t) : bytes := _key self.

Section WithLib.
Context {lib : Monocypher}.

(** Modelled from the spec: [SecretBox.encrypt].  "If [nonce] is omitted,
    draw a fresh random nonce of the required size
    from a CSPRNG.  Invoke the primitive authenticated-encryption operation
    to produce (mac, ciphertext) from (key, nonce, associated_data,
    plaintext).  Return an [EncryptedMessage] in full form." *)
Definition encrypt (self : t) (plaintext : bytes) (nonce : option bytes)
    (associated_data : bytes) : M EncryptedMessage.t :=
  nonce <~ match nonce with
           | None => utils.random NONCE_SIZE
           | Some n => mret n
           end ;;
  r <~ lift (crypto_aead.crypto_lock (_key self) nonce associated_data
               plaintext) ;;
  mret (EncryptedMessage.from_parts nonce (fst r) (snd r)).

(** Modelled from the spec: [SecretBox.decrypt].  "Accepts either an
    [EncryptedMessage] (nonce embedded) or a headless
    ciphertext with an explicit [nonce] argument; fails with [MissingNonce]
    if neither supplies one.  Invoke the primitive authenticated-decryption
    operation; on verification failure [...] fails with
    [AuthenticationFailed]."  The mac is split off the ciphertext by
    [from_headless_bytes]. *)
Definition decrypt (self : t) (message_or_ciphertext : message)
    (nonce : option bytes) (associated_data : bytes) : result bytes :=
  let embedded :=
    match message_or_ciphertext with
    | Message m => EncryptedMessage.nonce m
    | Ciphertext _ => None
    end in
  let data :=
    match message_or_ciphertext with
    | Message m => EncryptedMessage.ciphertext m
    | Ciphertext b => b
    end in
  nonce <- match embedded, nonce with
           | Some n, _ => Ok n
           | None, Some n => Ok n
           | None, None => Raise MissingNonce
           end ;;
  m <- EncryptedMessage.from_headless_bytes MAC_SIZE data ;;
  r <- crypto_aead.crypto_unlock (_key self) nonce
         (EncryptedMessage.detached_mac m) associated_data
         (EncryptedMessage.detached_ciphertext m) ;;
  match r with
  | Some plaintext => Ok plaintext
  | None => Raise AuthenticationFailed
  end.

End WithLib.
End SecretBox.

(* ================================================================== *)
(** * monocypher.public *)

Module PublicKey.

Definition KEY_SIZE := 32.

Record t : Type := { _pk : bytes }.

Definition init (pk : bytes) : result t :=
  utils.ensure_bytes_with_length "pk" pk KEY_SIZE ;;;
  Ok {| _pk := pk |}.

(** [__bytes__], and [Encodable.encode], which returns [bytes(self)]. *)
Definition encode (self : t) : bytes := _pk self.

End PublicKey.

Module PrivateKey.

Definition KEY_SIZE := 32.

Record t : Type := { _sk : bytes }.

Definition init (sk : bytes) : result t :=
  utils.ensure_bytes_with_length "sk" sk KEY_SIZE ;;;
  Ok {| _sk := sk |}.

Definition generate : M t :=
  sk <~ utils.random KEY_SIZE ;;
  lift (init sk).

Definition encode (self : t) : bytes := _sk self.

Section WithLib.
Context {lib : Monocypher}.

Definition public_key (self : t) : result PublicKey.t :=
  pk <- crypto_public.crypto_key_exchange_public_key (_sk self) ;;
  PublicKey.init pk.

End WithLib.
End PrivateKey.

(** The objects a caller may hand to a constructor that inspects its
    argument with [isinstance]. *)
Inductive value : Type :=
| VNone
| VBytes (b : bytes)
| VPublicKey (pk : PublicKey.t)
| VPrivateKey (sk : PrivateKey.t).

(** [ensure(isinstance(v, PrivateKey), exc, ...)], after which [v] is used
    as a [PrivateKey]. *)
Definition ensure_PrivateKey (v : value) (exc : exception)
    : result PrivateKey.t :=
  match v with
  | VPrivateKey sk => Ok sk
  | _ => Raise exc
  end.

Definition ensure_PublicKey (v : value) (exc : exception)
    : result PublicKey.t :=
  match v with
  | VPublicKey pk => Ok pk
  | _ => Raise exc
  end.

(** [PublicKey.__eq__]:
    [isinstance(other, self.__class__) and crypto_verify32(other._pk, self._pk)].
    When [isinstance] fails its [False] is the result and no comparison
    runs. *)
Definition PublicKey_eq (self : PublicKey.t) (other : value)
    : crypto_cmp.traced bool :=
  match other with
  | VPublicKey o =>
      crypto_cmp.crypto_verify32 (PublicKey._pk o) (PublicKey._pk self)
  | _ => crypto_cmp.tlift (Ok false)
  end.

(** [PublicKey.__hash__]: [hash(self._pk)], whatever Python's [hash] is on
    byte strings. *)
Definition PublicKey_hash (py_hash : bytes -> Z) (self : PublicKey.t) : Z :=
  py_hash (PublicKey._pk self).

(** [PrivateKey.__eq__]:
    [isinstance(other, self.__class__) and crypto_verify32(other._sk, self._sk)]. *)
Definition PrivateKey_eq (self : PrivateKey.t) (other : value)
    : crypto_cmp.traced bool :=
  match other with
  | VPrivateKey o =>
      crypto_cmp.crypto_verify32 (PrivateKey._sk o) (PrivateKey._sk self)
  | _ => crypto_cmp.tlift (Ok false)
  end.

(** [PrivateKey.__hash__]: [hash(self._sk)]. *)
Definition PrivateKey_hash (py_hash : bytes -> Z) (self : PrivateKey.t) : Z :=
  py_hash (PrivateKey._sk self).

Module Box.

Definition NONCE_SIZE := SecretBox.NONCE_SIZE.

Section WithLib.
Context {lib : Monocypher}.

(** A [Box] is a [SecretBox]: [super().__init__] receives the exchanged
    key. *)
Definition init (your_sk their_pk : value) : result SecretBox.t :=
  sk <- ensure_PrivateKey your_sk TypeError ;;
  pk <- ensure_PublicKey their_pk TypeError ;;
  key <- crypto_public.crypto_key_exchange (PrivateKey.encode sk)
           (PublicKey.encode pk) ;;
  SecretBox.init key.

Definition shared_key (self : SecretBox.t) : bytes := SecretBox._key self.

End WithLib.
End Box.

Module SealedBox.

Record t : Type := {
  _pk : PublicKey.t;
  _sk : option PrivateKey.t
}.

Section WithLib.
Context {lib : Monocypher}.

Definition init (receipient_key : value) : result t :=
  match receipient_key with
  | VPrivateKey sk =>
      pk <- PrivateKey.public_key sk ;;
      Ok {| _pk := pk; _sk := Some sk |}
  | VPublicKey pk => Ok {| _pk := pk; _sk := None |}
  | _ => Raise TypeError
  end.

Definition encrypt (self : t) (msg : bytes) : M bytes :=
  ephemeral_sk <~ PrivateKey.generate ;;
  ephemeral_pk <~ lift (PrivateKey.public_key ephemeral_sk) ;;
  let nonce := zeros Box.NONCE_SIZE in
  box <~ lift (Box.init (VPrivateKey ephemeral_sk) (VPublicKey (_pk self))) ;;
  m <~ SecretBox.encrypt box msg (Some nonce) [] ;;
  let ct := EncryptedMessage.ciphertext m in
  mret (PublicKey.encode ephemeral_pk ++ ct).

Definition decrypt (self : t) (ciphertext : bytes) : result bytes :=
  sk <- match _sk self with
        | Some sk => Ok sk
        | None => Raise RuntimeError
        end ;;
  let e_pk := firstn PublicKey.KEY_SIZE ciphertext in
  let ct := skipn PublicKey.KEY_SIZE ciphertext in
  epk <- PublicKey.init e_pk ;;
  box <- Box.init (VPrivateKey sk) (VPublicKey epk) ;;
  SecretBox.decrypt box (Ciphertext ct) (Some (zeros Box.NONCE_SIZE)) [].

End WithLib.
End SealedBox.

(* ================================================================== *)
(** * monocypher.pwhash

    Modelled from the spec: [monocypher/pwhash.py] is not among the
    sources; [tests/test_pwhash.py] calls its [pwhash] and [verify]. *)

(** Modelled from the spec: what an encoded hash of [monocypher/pwhash.py]
    (not among the sources) embeds, "(nb_blocks, nb_iterations, salt,
    hash)". *)
Record hash_fields : Type := {
  nb_blocks : nat;
  nb_iterations : nat;
  salt : bytes;
  hash : bytes
}.

(** Modelled from the spec: the encoding of [monocypher/pwhash.py] (not
    among the sources).  The spec fixes neither the bytes of the encoded
    string nor how many
    salt bytes are drawn ("draw >= 8 random bytes"): both are taken as
    given, the format with the round trip the spec asks of it. *)
Class Encoding : Type := {
  SALT_SIZE : nat;
  encode_hash : hash_fields -> bytes;
  parse_hash : bytes -> option hash_fields
}.

Class EncodingOk (enc : Encoding) : Prop := {
  salt_size_ok : 8 <= SALT_SIZE;
  parse_encode : forall f, parse_hash (encode_hash f) = Some f
}.

Module pwhash.
Section WithLib.
Context {lib : Monocypher} {enc : Encoding}.

(** Modelled from the spec: [pwhash].  "If [salt] is omitted, draw >= 8
    random bytes from a CSPRNG.
    Preconditions: hash_size >= 4, nb_blocks >= 8, nb_iterations >= 1, salt
    length >= 8; violations fail with [InvalidParameter] before invoking
    the KDF.  Encode (nb_blocks, nb_iterations, salt, hash)." *)
Definition pwhash (password : bytes) (salt : option bytes)
    (nb_blocks nb_iterations hash_size : nat) : M bytes :=
  salt <~ match salt with
          | None => utils.random SALT_SIZE
          | Some s => mret s
          end ;;
  _ <~ lift (utils.ensure (4 <=? hash_size) InvalidParameter) ;;
  _ <~ lift (utils.ensure (8 <=? nb_blocks) InvalidParameter) ;;
  _ <~ lift (utils.ensure (1 <=? nb_iterations) InvalidParameter) ;;
  _ <~ lift (utils.ensure (8 <=? length salt) InvalidParameter) ;;
  let digest :=
    crypto_argon2i hash_size nb_blocks nb_iterations password salt in
  mret (encode_hash {| nb_blocks := nb_blocks;
                       nb_iterations := nb_iterations;
                       salt := salt; hash := digest |}).

(** Modelled from the spec: the comparison [verify] makes.  "The
    constant-time comparator": the one of [crypto_cmp] whose width is
    the length of the recovered hash (16, 32 or 64); a hash of another
    length has no comparator and is an [InvalidLength]. *)
Definition compare_hash (recovered recomputed : bytes) : result bool :=
  let n := length recovered in
  if n =? 16 then snd (crypto_cmp.crypto_verify16 recovered recomputed)
  else if n =? 32 then snd (crypto_cmp.crypto_verify32 recovered recomputed)
  else if n =? 64 then snd (crypto_cmp.crypto_verify64 recovered recomputed)
  else Raise InvalidLength.

(** Modelled from the spec: [verify].  "Parse [encoded] to recover
    parameters and the reference hash;
    recompute the hash with the parsed parameters and the supplied
    [password]; compare recovered vs. recomputed hash using the
    constant-time comparator.  Returns boolean": a string that does not
    parse verifies nothing. *)
Definition verify (password encoded : bytes) : result bool :=
  match parse_hash encoded with
  | None => Ok false
  | Some f =>
      let recomputed :=
        crypto_argon2i (length (hash f)) (nb_blocks f) (nb_iterations f)
          password (salt f) in
      compare_hash (hash f) recomputed
  end.

End WithLib.
End pwhash.

(* ================================================================== *)
(** * A small instance of the interfaces

    A tiny cipher and exchange that meet the contract of the primitives
    (nothing more: they protect nothing), and a unary encoding of the hash
    fields.  They show that the contracts can be met and give the theorems
    below inputs to run on. *)

Module Toy.

Definition xor_byte (x y : byte) : byte :=
  match Byte.of_N (N.lxor (Byte.to_N x) (Byte.to_N y)) with
  | Some z => z
  | None => x00
  end.

Fixpoint xor_bytes (a b : bytes) : bytes :=
  match a, b with
  | x :: a', y :: b' => xor_byte x y :: xor_bytes a' b'
  | _, _ => []
  end.

Definition checksum (l : bytes) : byte := fold_right xor_byte x00 l.

Definition mac (key nonce ad ct : bytes) : bytes :=
  repeat (checksum (key ++ nonce ++ ad ++ ct)) 16.

Definition lock (key nonce ad msg : bytes) : bytes * bytes :=
  let ct := rev msg in (mac key nonce ad ct, ct).

Definition unlock (key nonce tag ad ct : bytes) : option bytes :=
  if bytes_eq_dec tag (mac key nonce ad ct) then Some (rev ct) else None.

Definition lib : Monocypher := {|
  crypto_lock_aead := lock;
  crypto_unlock_aead := unlock;
  crypto_key_exchange_public_key := fun sk => sk;
  crypto_x25519 := xor_bytes;
  crypto_hchacha20_kdf := fun raw => raw;
  crypto_argon2i := fun hash_size _ _ password salt =>
    repeat (checksum (password ++ salt)) hash_size
|}.

(** Unary numbers and a length-prefixed salt, [x00] closing each number. *)
Definition unary (n : nat) : bytes := repeat x01 n ++ [x00].

Fixpoint read_unary (l : bytes) : option (nat * bytes) :=
  match l with
  | [] => None
  | x00 :: rest => Some (0, rest)
  | _ :: l' =>
      match read_unary l' with
      | Some (n, rest) => Some (S n, rest)
      | None => None
      end
  end.

Definition encode (f : hash_fields) : bytes :=
  unary (nb_blocks f) ++ unary (nb_iterations f) ++
  unary (length (salt f)) ++ salt f ++ hash f.

Definition parse (l : bytes) : option hash_fields :=
  match read_unary l with
  | None => None
  | Some (m, l1) =>
      match read_unary l1 with
      | None => None
      | Some (t, l2) =>
          match read_unary l2 with
          | None => None
          | Some (n, l3) =>
              Some {| nb_blocks := m; nb_iterations := t;
                      salt := firstn n l3; hash := skipn n l3 |}
          end
      end
  end.

Definition enc : Encoding := {|
  SALT_SIZE := 16;
  encode_hash := encode;
  parse_hash := parse
|}.

(** An entropy tape for the examples. *)
Definition tape : rng := fun i =>
  match Byte.of_nat (i mod 251) with Some b => b | None => x00 end.

End Toy.

(* ================================================================== *)
(** * Vocabulary of the statements *)

Module CmpShape.
Import crypto_cmp.

(** The shape the three wrappers share. *)
Definition wrapper (n : nat) (a b : bytes) : traced bool :=
  _ <! tlift (utils.ensure_bytes_with_length "a" a n) ;;
  _ <! tlift (utils.ensure_bytes_with_length "b" b n) ;;
  rv <! tcall n (lib_crypto_verify n) a b ;;
  tlift (Ok (Z.eqb rv 0)).

(** What a comparator of width [n] owes its callers. *)
Definition comparator (n : nat) (f : bytes -> bytes -> traced bool) : Prop :=
  forall a b : bytes,
    (length a = n -> length b = n ->
       (a = b -> f a b = ([verify_call n a b], Ok true)) /\
       (a <> b -> f a b = ([verify_call n a b], Ok false))) /\
    (length a <> n \/ length b <> n -> f a b = ([], Raise InvalidLength)).

End CmpShape.

(** The key objects of a run: they exist through their constructors
    only. *)
Inductive constructed : value -> Prop :=
| constructed_None : constructed VNone
| constructed_Bytes (b : bytes) : constructed (VBytes b)
| constructed_PublicKey (b : bytes) (pk : PublicKey.t) :
    PublicKey.init b = Ok pk -> constructed (VPublicKey pk)
| constructed_PrivateKey (b : bytes) (sk : PrivateKey.t) :
    PrivateKey.init b = Ok sk -> constructed (VPrivateKey sk).

(** Enumerations of byte strings, for counting arguments. *)
Module Counting.

Definition byte_of_nat (n : nat) : byte :=
  match Byte.of_nat n with Some b => b | None => x00 end.

(** The 256 bytes. *)
Definition all_bytes : list byte := map byte_of_nat (seq 0 256).

(** The byte strings of length [n]. *)
Fixpoint strings (n : nat) : list bytes :=
  match n with
  | 0 => [[]]
  | S n' => flat_map (fun b => map (cons b) (strings n')) all_bytes
  end.

End Counting.

(* ================================================================== *)
(** * Properties *)

(** ** The constant-time comparators *)

Module CmpFacts.
Import crypto_cmp CmpShape.

Lemma byte_diff_zero (x y : byte) : byte_diff x y = 0%N <-> x = y.
Proof.
  unfold byte_diff; split.
  - intros H. apply N.lxor_eq in H.
    assert (E : Byte.of_N (Byte.to_N x) = Byte.of_N (Byte.to_N y))
      by (now rewrite H).
    rewrite !Byte.of_to_N in E. now inversion E.
  - intros ->. apply N.lxor_nilpotent.
Qed.

Lemma accumulate_zero (a : bytes) : forall (b : bytes) (acc : N),
  length a = length b ->
  (accumulate acc a b = 0%N <-> acc = 0%N /\ a = b).
Proof.
  induction a as [|x a IH]; intros [|y b] acc Hlen; simpl in *;
    try discriminate.
  - tauto.
  - injection Hlen as Hlen. rewrite (IH b _ Hlen), N.lor_eq_0_iff.
    rewrite byte_diff_zero. split.
    + intros [[-> ->] ->]. auto.
    + intros [-> E]. injection E as -> ->. auto.
Qed.

(** The header's contract: "Return 0 if a and b are equal, -1
    otherwise". *)
Lemma lib_crypto_verify_equal (n : nat) (a b : bytes) :
  length a = n -> length b = n -> a = b -> lib_crypto_verify n a b = 0%Z.
Proof.
  intros Ha Hb ->. unfold lib_crypto_verify.
  rewrite firstn_all2 by lia.
  assert (E : accumulate 0 b b = 0%N) by (apply accumulate_zero; auto).
  now rewrite E.
Qed.

Lemma lib_crypto_verify_differ (n : nat) (a b : bytes) :
  length a = n -> length b = n -> a <> b ->
  lib_crypto_verify n a b = (-1)%Z.
Proof.
  intros Ha Hb Hne. unfold lib_crypto_verify.
  rewrite !firstn_all2 by lia.
  destruct (N.eqb_spec (accumulate 0 a b) 0) as [E|E]; [|reflexivity].
  apply accumulate_zero in E; [|congruence]. now destruct E.
Qed.

Lemma wrapper_wrong_length (n : nat) (a b : bytes) :
  length a <> n \/ length b <> n -> wrapper n a b = ([], Raise InvalidLength).
Proof.
  intros H. unfold wrapper, utils.ensure_bytes_with_length, utils.ensure.
  destruct (Nat.eqb_spec (length a) n) as [Ha|Ha]; simpl; [|reflexivity].
  destruct (Nat.eqb_spec (length b) n) as [Hb|Hb]; simpl; [|reflexivity].
  tauto.
Qed.

Lemma wrapper_right_length (n : nat) (a b : bytes) :
  length a = n -> length b = n ->
  wrapper n a b =
  ([verify_call n a b], Ok (if bytes_eq_dec a b then true else false)).
Proof.
  intros Ha Hb. unfold wrapper, utils.ensure_bytes_with_length, utils.ensure.
  rewrite Ha, Hb, Nat.eqb_refl. simpl.
  destruct (bytes_eq_dec a b) as [E|E].
  - now rewrite (lib_crypto_verify_equal Ha Hb E).
  - now rewrite (lib_crypto_verify_differ Ha Hb E).
Qed.

Lemma wrapper_comparator (n : nat) : comparator n (wrapper n).
Proof.
  intros a b; split.
  - intros Ha Hb. rewrite (wrapper_right_length _ _ Ha Hb).
    destruct (bytes_eq_dec a b); split; intros; congruence.
  - apply wrapper_wrong_length.
Qed.

End CmpFacts.

(** ** Length checks and constructors *)

Lemma ensure_bytes_with_length_ok (name : string) (value : bytes) (n : nat) :
  length value = n -> utils.ensure_bytes_with_length name value n = Ok tt.
Proof.
  intros <-. unfold utils.ensure_bytes_with_length, utils.ensure.
  now rewrite Nat.eqb_refl.
Qed.

Lemma ensure_bytes_with_length_raise (name : string) (value : bytes) (n : nat) :
  length value <> n ->
  utils.ensure_bytes_with_length name value n = Raise InvalidLength.
Proof.
  intros H. unfold utils.ensure_bytes_with_length, utils.ensure.
  now destruct (Nat.eqb_spec (length value) n).
Qed.

Lemma ensure_bytes_with_length_inv (name : string) (value : bytes) (n : nat)
    (u : unit) :
  utils.ensure_bytes_with_length name value n = Ok u -> length value = n.
Proof.
  unfold utils.ensure_bytes_with_length, utils.ensure.
  now destruct (Nat.eqb_spec (length value) n).
Qed.

Lemma PublicKey_init_ok (pk : bytes) :
  length pk = 32 -> PublicKey.init pk = Ok {| PublicKey._pk := pk |}.
Proof.
  intros H. unfold PublicKey.init, PublicKey.KEY_SIZE.
  now rewrite ensure_bytes_with_length_ok.
Qed.

Lemma PublicKey_init_inv (pk : bytes) (k : PublicKey.t) :
  PublicKey.init pk = Ok k ->
  length pk = 32 /\ k = {| PublicKey._pk := pk |}.
Proof.
  unfold PublicKey.init, PublicKey.KEY_SIZE. intros H.
  destruct (Nat.eq_dec (length pk) 32) as [E|E].
  - rewrite ensure_bytes_with_length_ok in H by exact E.
    simpl in H. now inversion H.
  - rewrite ensure_bytes_with_length_raise in H by exact E. discriminate.
Qed.

Lemma PrivateKey_init_ok (sk : bytes) :
  length sk = 32 -> PrivateKey.init sk = Ok {| PrivateKey._sk := sk |}.
Proof.
  intros H. unfold PrivateKey.init, PrivateKey.KEY_SIZE.
  now rewrite ensure_bytes_with_length_ok.
Qed.

Lemma PrivateKey_init_inv (sk : bytes) (k : PrivateKey.t) :
  PrivateKey.init sk = Ok k ->
  length sk = 32 /\ k = {| PrivateKey._sk := sk |}.
Proof.
  unfold PrivateKey.init, PrivateKey.KEY_SIZE. intros H.
  destruct (Nat.eq_dec (length sk) 32) as [E|E].
  - rewrite ensure_bytes_with_length_ok in H by exact E.
    simpl in H. now inversion H.
  - rewrite ensure_bytes_with_length_raise in H by exact E. discriminate.
Qed.

Lemma SecretBox_init_ok (key : bytes) :
  length key = 32 -> SecretBox.init key = Ok {| SecretBox._key := key |}.
Proof.
  intros H. unfold SecretBox.init, SecretBox.KEY_SIZE.
  now rewrite ensure_bytes_with_length_ok.
Qed.

Lemma draw_length (n : nat) (g : rng) : length (draw n g) = n.
Proof. unfold draw. now rewrite length_map, length_seq. Qed.

Lemma draw_advance (n m : nat) (g : rng) :
  draw m (advance n g) = map g (seq n m).
Proof.
  unfold draw, advance.
  assert (H : forall s, map (fun i => g (n + i)) (seq s m) =
                        map g (seq (n + s) m)).
  { induction m as [|m IH]; intros s; simpl; [reflexivity|].
    now rewrite IH, Nat.add_succ_r. }
  now rewrite H, Nat.add_0_r.
Qed.

Lemma zeros_length (n : nat) : length (zeros n) = n.
Proof. apply repeat_length. Qed.

Lemma PrivateKey_generate_eq (g : rng) :
  PrivateKey.generate g =
  (Ok {| PrivateKey._sk := draw 32 g |}, advance 32 g).
Proof.
  unfold PrivateKey.generate, mbind, utils.random, lift, PrivateKey.KEY_SIZE.
  now rewrite PrivateKey_init_ok by apply draw_length.
Qed.

Section Facts.
Context {lib : Monocypher}.

Lemma public_key_eq (sk : bytes) :
  length sk = 32 ->
  length (crypto_key_exchange_public_key sk) = 32 ->
  PrivateKey.public_key {| PrivateKey._sk := sk |} =
  Ok {| PublicKey._pk := crypto_key_exchange_public_key sk |}.
Proof.
  intros Hsk Hpk.
  unfold PrivateKey.public_key, crypto_public.crypto_key_exchange_public_key.
  simpl. rewrite ensure_bytes_with_length_ok by exact Hsk. simpl.
  now apply PublicKey_init_ok.
Qed.

Lemma public_key_inv (sk : PrivateKey.t) (pk : PublicKey.t) :
  PrivateKey.public_key sk = Ok pk -> length (PublicKey._pk pk) = 32.
Proof.
  unfold PrivateKey.public_key. intros H.
  destruct (crypto_public.crypto_key_exchange_public_key (PrivateKey._sk sk))
    as [b|e]; simpl in H; [|discriminate].
  apply PublicKey_init_inv in H. destruct H as [Hlen ->]. exact Hlen.
Qed.

Lemma crypto_key_exchange_eq (sk pk : bytes) :
  length sk = 32 -> length pk = 32 ->
  crypto_public.crypto_key_exchange sk pk = Ok (derive_shared_secret sk pk).
Proof.
  intros Hsk Hpk. unfold crypto_public.crypto_key_exchange.
  now rewrite !ensure_bytes_with_length_ok.
Qed.

Lemma SealedBox_init_pk_length (key : value) (self : SealedBox.t) :
  constructed key -> SealedBox.init key = Ok self ->
  length (PublicKey._pk (SealedBox._pk self)) = 32.
Proof.
  intros Hc H. destruct Hc as [| |b pk Hpk|b sk Hsk]; simpl in H;
    try discriminate.
  - inversion H; subst; simpl. apply PublicKey_init_inv in Hpk.
    destruct Hpk as [Hlen ->]. exact Hlen.
  - destruct (PrivateKey.public_key sk) as [pk|e] eqn:E; simpl in H;
      [|discriminate].
    inversion H; subst; simpl. exact (public_key_inv _ E).
Qed.

Context {ok : MonocypherOk lib}.

Lemma derive_shared_secret_length (sk pk : bytes) :
  length sk = 32 -> length pk = 32 ->
  length (derive_shared_secret sk pk) = 32.
Proof.
  intros Hsk Hpk. unfold derive_shared_secret.
  apply hchacha20_length. now apply x25519_length.
Qed.

Lemma derive_shared_secret_symmetric (a b : bytes) :
  length a = 32 -> length b = 32 ->
  derive_shared_secret a (crypto_key_exchange_public_key b) =
  derive_shared_secret b (crypto_key_exchange_public_key a).
Proof.
  intros Ha Hb. unfold derive_shared_secret.
  now rewrite x25519_symmetric.
Qed.

Lemma Box_init_eq (sk pk : bytes) :
  length sk = 32 -> length pk = 32 ->
  Box.init (VPrivateKey {| PrivateKey._sk := sk |})
           (VPublicKey {| PublicKey._pk := pk |}) =
  Ok {| SecretBox._key := derive_shared_secret sk pk |}.
Proof.
  intros Hsk Hpk. unfold Box.init. simpl.
  rewrite crypto_key_exchange_eq by assumption. simpl.
  apply SecretBox_init_ok. now apply derive_shared_secret_length.
Qed.

End Facts.

(** ** SecretBox: what its two operations compute *)

Section SecretBoxFacts.
Context {lib : Monocypher}.

Lemma SecretBox_encrypt_eq (key nonce ad msg : bytes) (g : rng) :
  length key = 32 -> length nonce = 24 ->
  SecretBox.encrypt {| SecretBox._key := key |} msg (Some nonce) ad g =
  (Ok (EncryptedMessage.from_parts nonce
         (fst (crypto_lock_aead key nonce ad msg))
         (snd (crypto_lock_aead key nonce ad msg))), g).
Proof.
  intros Hk Hn.
  unfold SecretBox.encrypt, mbind, mret, lift, crypto_aead.crypto_lock.
  simpl. now rewrite !ensure_bytes_with_length_ok.
Qed.

Lemma SecretBox_encrypt_random_nonce (key ad msg : bytes) (g : rng) :
  length key = 32 ->
  SecretBox.encrypt {| SecretBox._key := key |} msg None ad g =
  (Ok (EncryptedMessage.from_parts (draw 24 g)
         (fst (crypto_lock_aead key (draw 24 g) ad msg))
         (snd (crypto_lock_aead key (draw 24 g) ad msg))), advance 24 g).
Proof.
  intros Hk.
  unfold SecretBox.encrypt, mbind, mret, lift, crypto_aead.crypto_lock,
    utils.random, SecretBox.NONCE_SIZE.
  simpl. now rewrite !ensure_bytes_with_length_ok by (auto using draw_length).
Qed.

Lemma from_headless_bytes_short (n : nat) (data : bytes) :
  length data < n ->
  EncryptedMessage.from_headless_bytes n data = Raise MalformedMessage.
Proof.
  intros H. unfold EncryptedMessage.from_headless_bytes, utils.ensure.
  destruct (Nat.leb_spec n (length data)); [lia|reflexivity].
Qed.

Lemma from_headless_bytes_ok (n : nat) (data : bytes) :
  n <= length data ->
  EncryptedMessage.from_headless_bytes n data =
  Ok {| EncryptedMessage.nonce := None;
        EncryptedMessage.detached_mac := firstn n data;
        EncryptedMessage.detached_ciphertext := skipn n data |}.
Proof.
  intros H. unfold EncryptedMessage.from_headless_bytes, utils.ensure.
  destruct (Nat.leb_spec n (length data)); [reflexivity|lia].
Qed.

(** A headless ciphertext shorter than a MAC is malformed. *)
Lemma SecretBox_decrypt_short (self : SecretBox.t) (data nonce ad : bytes) :
  length data < 16 ->
  SecretBox.decrypt self (Ciphertext data) (Some nonce) ad =
  Raise MalformedMessage.
Proof.
  intros H. unfold SecretBox.decrypt, SecretBox.MAC_SIZE. cbn [bind].
  now rewrite from_headless_bytes_short.
Qed.

(** Otherwise the first 16 bytes go to the primitive as the MAC, the rest
    as the cipher text, and its verdict is the outcome. *)
Lemma SecretBox_decrypt_eq (key data nonce ad : bytes) :
  length key = 32 -> length nonce = 24 -> 16 <= length data ->
  SecretBox.decrypt {| SecretBox._key := key |} (Ciphertext data)
    (Some nonce) ad =
  match crypto_unlock_aead key nonce (firstn 16 data) ad (skipn 16 data) with
  | Some plaintext => Ok plaintext
  | None => Raise AuthenticationFailed
  end.
Proof.
  intros Hk Hn Hd. unfold SecretBox.decrypt, SecretBox.MAC_SIZE,
    crypto_aead.crypto_unlock. cbn [bind].
  rewrite from_headless_bytes_ok by exact Hd.
  cbn [bind EncryptedMessage.detached_mac EncryptedMessage.detached_ciphertext
       SecretBox._key].
  rewrite !ensure_bytes_with_length_ok; auto.
  rewrite length_firstn. lia.
Qed.

(** An [EncryptedMessage] is decrypted as its nonce and its ciphertext. *)
Lemma SecretBox_decrypt_message (self : SecretBox.t)
    (m : EncryptedMessage.t) (n : bytes) (nonce : option bytes) (ad : bytes) :
  EncryptedMessage.nonce m = Some n ->
  SecretBox.decrypt self (Message m) nonce ad =
  SecretBox.decrypt self (Ciphertext (EncryptedMessage.ciphertext m))
    (Some n) ad.
Proof. intros H. unfold SecretBox.decrypt. now rewrite H. Qed.

(** With a nonce at hand, [decrypt] fails in three ways only. *)
Lemma SecretBox_decrypt_errors (self : SecretBox.t) (data n ad : bytes)
    (e : exception) :
  SecretBox.decrypt self (Ciphertext data) (Some n) ad = Raise e ->
  e = MalformedMessage \/ e = InvalidLength \/ e = AuthenticationFailed.
Proof.
  unfold SecretBox.decrypt, EncryptedMessage.from_headless_bytes,
    crypto_aead.crypto_unlock, utils.ensure_bytes_with_length, utils.ensure.
  cbn [bind].
  repeat match goal with
         | |- context [if ?c then _ else _] => destruct c; cbn [bind]
         end;
    try (intros E; inversion E; now auto).
  destruct (crypto_unlock_aead _ _ _ _ _); intros E; inversion E; auto.
Qed.

Context {ok : MonocypherOk lib}.

Lemma SecretBox_decrypt_locked (key nonce ad msg : bytes) :
  length key = 32 -> length nonce = 24 ->
  SecretBox.decrypt {| SecretBox._key := key |}
    (Ciphertext (fst (crypto_lock_aead key nonce ad msg) ++
                 snd (crypto_lock_aead key nonce ad msg)))
    (Some nonce) ad = Ok msg.
Proof.
  intros Hk Hn.
  pose proof (lock_mac_length key nonce ad msg) as Hmac.
  rewrite SecretBox_decrypt_eq; auto.
  - rewrite firstn_app, skipn_app, Hmac, Nat.sub_diag.
    rewrite firstn_O, skipn_O, app_nil_r.
    rewrite firstn_all2, skipn_all2 by lia.
    cbn [app]. now rewrite unlock_lock.
  - rewrite length_app. lia.
Qed.

End SecretBoxFacts.

(** ** The small instance meets the contracts *)

Module ToyFacts.
Import Toy.

Lemma xor_byte_comm (x y : byte) : xor_byte x y = xor_byte y x.
Proof. unfold xor_byte. now rewrite N.lxor_comm. Qed.

Lemma xor_bytes_comm (a : bytes) : forall b, xor_bytes a b = xor_bytes b a.
Proof.
  induction a as [|x a IH]; intros [|y b]; simpl; try reflexivity.
  now rewrite IH, xor_byte_comm.
Qed.

Lemma xor_bytes_length (a : bytes) : forall b,
  length a = length b -> length (xor_bytes a b) = length a.
Proof.
  induction a as [|x a IH]; intros [|y b] H; simpl in *; try discriminate;
    auto.
Qed.

Lemma lib_ok : MonocypherOk lib.
Proof.
  constructor;
    cbn [lib crypto_lock_aead crypto_unlock_aead crypto_x25519
         crypto_key_exchange_public_key crypto_hchacha20_kdf crypto_argon2i].
  - intros. unfold lock, mac. cbn [fst]. apply repeat_length.
  - intros. unfold lock. cbn [snd]. apply length_rev.
  - intros key nonce ad msg _ _. unfold unlock, lock. cbn [fst snd].
    destruct (bytes_eq_dec _ _) as [_|E]; [|now elim E].
    now rewrite rev_involutive.
  - auto.
  - intros sk pk Hsk Hpk. rewrite xor_bytes_length; congruence.
  - auto.
  - intros a b _ _. apply xor_bytes_comm.
  - intros. apply repeat_length.
Qed.

Lemma read_unary_unary (n : nat) (rest : bytes) :
  read_unary (unary n ++ rest) = Some (n, rest).
Proof.
  unfold unary. induction n as [|n IH]; simpl; [reflexivity|].
  now rewrite IH.
Qed.

Lemma enc_ok : EncodingOk enc.
Proof.
  constructor; cbn [enc SALT_SIZE encode_hash parse_hash].
  - lia.
  - intros [m t s h]. unfold parse, encode.
    cbn [nb_blocks nb_iterations salt hash].
    rewrite !read_unary_unary.
    rewrite firstn_app, skipn_app, Nat.sub_diag, firstn_all, skipn_all.
    rewrite firstn_O, skipn_O, app_nil_r. reflexivity.
Qed.

End ToyFacts.

(** ** SealedBox: what its operations compute *)

Section SealedBoxFacts.
Context {lib : Monocypher}.

Lemma SealedBox_decrypt_public_only (pk : PublicKey.t) (sealed : bytes) :
  SealedBox.decrypt {| SealedBox._pk := pk; SealedBox._sk := None |} sealed =
  Raise RuntimeError.
Proof. reflexivity. Qed.

(** The 32-byte slice taken off a shorter input is no public key. *)
Lemma SealedBox_decrypt_short (pk : PublicKey.t) (sk : PrivateKey.t)
    (sealed : bytes) :
  length sealed < 32 ->
  SealedBox.decrypt {| SealedBox._pk := pk; SealedBox._sk := Some sk |}
    sealed = Raise InvalidLength.
Proof.
  intros H. unfold SealedBox.decrypt, PublicKey.init, PublicKey.KEY_SIZE.
  cbn [bind SealedBox._sk].
  rewrite ensure_bytes_with_length_raise; [reflexivity|].
  rewrite length_firstn. lia.
Qed.

Lemma SealedBox_decrypt_not_RuntimeError (self : SealedBox.t)
    (sk : PrivateKey.t) (sealed : bytes) :
  SealedBox._sk self = Some sk ->
  SealedBox.decrypt self sealed <> Raise RuntimeError.
Proof.
  intros Hsk. unfold SealedBox.decrypt. rewrite Hsk. cbn [bind].
  destruct (PublicKey.init (firstn PublicKey.KEY_SIZE sealed)) as [epk|e]
    eqn:Eepk; cbn [bind].
  - destruct (Box.init (VPrivateKey sk) (VPublicKey epk)) as [box|e] eqn:Ebox;
      cbn [bind].
    + destruct (SecretBox.decrypt box _ _ _) as [p|e] eqn:E; [discriminate|].
      apply SecretBox_decrypt_errors in E.
      destruct E as [ -> | [ -> | -> ] ]; discriminate.
    + unfold Box.init, crypto_public.crypto_key_exchange, SecretBox.init,
        utils.ensure_bytes_with_length, utils.ensure in Ebox.
      cbn [bind ensure_PrivateKey ensure_PublicKey] in Ebox.
      repeat match type of Ebox with
             | context [if ?c then _ else _] => destruct c; cbn [bind] in Ebox
             end; inversion Ebox; discriminate.
  - unfold PublicKey.init, utils.ensure_bytes_with_length, utils.ensure
      in Eepk.
    destruct (_ =? _); cbn [bind] in Eepk; inversion Eepk; discriminate.
Qed.

Context {ok : MonocypherOk lib}.

Lemma SealedBox_init_private (skb : bytes) :
  length skb = 32 ->
  SealedBox.init (VPrivateKey {| PrivateKey._sk := skb |}) =
  Ok {| SealedBox._pk :=
          {| PublicKey._pk := crypto_key_exchange_public_key skb |};
        SealedBox._sk := Some {| PrivateKey._sk := skb |} |}.
Proof.
  intros H. unfold SealedBox.init.
  now rewrite public_key_eq by (auto using public_key_length).
Qed.

Lemma SealedBox_encrypt_eq (self : SealedBox.t) (msg : bytes) (g : rng) :
  length (PublicKey._pk (SealedBox._pk self)) = 32 ->
  SealedBox.encrypt self msg g =
  (Ok (crypto_key_exchange_public_key (draw 32 g) ++
       fst (crypto_lock_aead
              (derive_shared_secret (draw 32 g)
                 (PublicKey._pk (SealedBox._pk self))) (zeros 24) [] msg) ++
       snd (crypto_lock_aead
              (derive_shared_secret (draw 32 g)
                 (PublicKey._pk (SealedBox._pk self))) (zeros 24) [] msg)),
   advance 32 g).
Proof.
  intros Hpk.
  assert (Hesk : length (draw 32 g) = 32) by apply draw_length.
  unfold SealedBox.encrypt, mbind, lift, mret.
  rewrite PrivateKey_generate_eq. cbv beta iota.
  rewrite public_key_eq by (auto using public_key_length).
  cbv beta iota zeta.
  destruct self as [[pkb] sko]. cbn [SealedBox._pk PublicKey._pk] in *.
  rewrite Box_init_eq by assumption. cbv beta iota.
  unfold Box.NONCE_SIZE, SecretBox.NONCE_SIZE.
  rewrite SecretBox_encrypt_eq;
    [reflexivity|now apply derive_shared_secret_length|apply zeros_length].
Qed.

(** With a private key and at least 32 bytes of input, the first 32 bytes
    are exchanged against the private key and the rest goes to
    [SecretBox.decrypt] under the zero nonce. *)
Lemma SealedBox_decrypt_eq (pk : PublicKey.t) (skb sealed : bytes) :
  length skb = 32 -> 32 <= length sealed ->
  SealedBox.decrypt
    {| SealedBox._pk := pk;
       SealedBox._sk := Some {| PrivateKey._sk := skb |} |} sealed =
  SecretBox.decrypt
    {| SecretBox._key := derive_shared_secret skb (firstn 32 sealed) |}
    (Ciphertext (skipn 32 sealed)) (Some (zeros 24)) [].
Proof.
  intros Hsk Hlen.
  assert (Hepk : length (firstn 32 sealed) = 32)
    by (rewrite length_firstn; lia).
  unfold SealedBox.decrypt, PublicKey.KEY_SIZE. cbn [bind SealedBox._sk].
  rewrite PublicKey_init_ok by exact Hepk. cbn [bind].
  rewrite Box_init_eq by assumption. cbn [bind]. reflexivity.
Qed.

End SealedBoxFacts.

(** ** Counting byte strings *)

Module CountingFacts.
Import Counting.

Lemma all_bytes_complete (b : byte) : In b all_bytes.
Proof.
  unfold all_bytes. apply in_map_iff. exists (Byte.to_nat b). split.
  - unfold byte_of_nat. now rewrite Byte.of_to_nat.
  - apply in_seq. pose proof (Byte.to_nat_bounded b). lia.
Qed.

Lemma all_bytes_NoDup : NoDup all_bytes.
Proof.
  apply (NoDup_map_inv Byte.to_nat).
  replace (map Byte.to_nat all_bytes) with (seq 0 256) by (vm_compute; reflexivity).
  apply seq_NoDup.
Qed.

Lemma all_bytes_length : length all_bytes = 256.
Proof. unfold all_bytes. now rewrite length_map, length_seq. Qed.

Lemma strings_complete (l : bytes) : In l (strings (length l)).
Proof.
  induction l as [|b l IH]; cbn [strings length]; [now left|].
  apply in_flat_map. exists b. split; [apply all_bytes_complete|].
  now apply in_map.
Qed.

Lemma strings_sound (n : nat) : forall l, In l (strings n) -> length l = n.
Proof.
  induction n as [|n IH]; cbn [strings]; intros l H.
  - destruct H as [<-|[]]. reflexivity.
  - apply in_flat_map in H. destruct H as [b [_ H]].
    apply in_map_iff in H. destruct H as [l' [<- H]].
    cbn [length]. f_equal. now apply IH.
Qed.

Lemma flat_map_cons_NoDup (tails : list bytes) (heads : list byte) :
  NoDup tails -> NoDup heads ->
  NoDup (flat_map (fun b => map (cons b) tails) heads).
Proof.
  intros Ht Hh.
  induction Hh as [|b heads Hb Hh IH]; cbn [flat_map]; [constructor|].
  apply NoDup_app.
  - apply NoDup_map_NoDup_ForallPairs; [|exact Ht].
    intros x y _ _ E. now inversion E.
  - exact IH.
  - intros l Hl Hl'. apply in_map_iff in Hl. destruct Hl as [t [<- _]].
    apply in_flat_map in Hl'. destruct Hl' as [b' [Hb' Hl']].
    apply in_map_iff in Hl'. destruct Hl' as [t' [E _]].
    inversion E; subst. contradiction.
Qed.

Lemma strings_NoDup (n : nat) : NoDup (strings n).
Proof.
  induction n as [|n IH]; cbn [strings].
  - constructor; [intros []|constructor].
  - apply flat_map_cons_NoDup; [exact IH|apply all_bytes_NoDup].
Qed.

Lemma flat_map_cons_length (tails : list bytes) (heads : list byte) :
  length (flat_map (fun b => map (cons b) tails) heads) =
  length heads * length tails.
Proof.
  induction heads as [|b heads IH]; cbn [flat_map length]; [reflexivity|].
  rewrite length_app, length_map, IH. reflexivity.
Qed.

Lemma strings_length (n : nat) : length (strings n) = 256 ^ n.
Proof.
  induction n as [|n IH].
  - reflexivity.
  - cbn [strings]. rewrite flat_map_cons_length, all_bytes_length, IH.
    now rewrite Nat.pow_succ_r'.
Qed.

(** There are more strings of length [n] than of length [m < n]: no map
    from the former to the latter is injective. *)
Lemma no_injection (n m : nat) (h : bytes -> bytes) :
  m < n ->
  (forall x, length x = n -> length (h x) = m) ->
  ~ (forall x y, length x = n -> length y = n -> h x = h y -> x = y).
Proof.
  intros Hmn Hlen Hinj.
  assert (N : NoDup (map h (strings n))).
  { apply NoDup_map_NoDup_ForallPairs; [|apply strings_NoDup].
    intros x y Hx Hy. apply Hinj; now apply strings_sound. }
  assert (I : incl (map h (strings n)) (strings m)).
  { intros l Hl. apply in_map_iff in Hl. destruct Hl as [x [<- Hx]].
    rewrite <- (Hlen x (strings_sound _ _ Hx)). apply strings_complete. }
  pose proof (NoDup_incl_length N I) as L.
  rewrite length_map, !strings_length in L.
  pose proof (Nat.pow_lt_mono_r 256 m n) as P.
  assert (1 < 256) by (repeat constructor).
  specialize (P H Hmn). apply (Nat.lt_irrefl (256 ^ m)).
  eapply Nat.lt_le_trans; eassumption.
Qed.

End CountingFacts.

(** ** pwhash: what its operations compute *)

Section PwhashFacts.
Context {lib : Monocypher} {enc : Encoding}.

Lemma pwhash_eq (password salt : bytes)
    (nb_blocks nb_iterations hash_size : nat) (g : rng) :
  4 <= hash_size -> 8 <= nb_blocks -> 1 <= nb_iterations ->
  8 <= length salt ->
  pwhash.pwhash password (Some salt) nb_blocks nb_iterations hash_size g =
  (Ok (encode_hash
         {| nb_blocks := nb_blocks; nb_iterations := nb_iterations;
            salt := salt;
            hash := crypto_argon2i hash_size nb_blocks nb_iterations
                      password salt |}), g).
Proof.
  intros Hh Hb Hi Hs. unfold pwhash.pwhash, mbind, mret, lift, utils.ensure.
  destruct (Nat.leb_spec 4 hash_size); [|lia].
  destruct (Nat.leb_spec 8 nb_blocks); [|lia].
  destruct (Nat.leb_spec 1 nb_iterations); [|lia].
  destruct (Nat.leb_spec 8 (length salt)); [|lia].
  reflexivity.
Qed.

Lemma pwhash_random_salt (password : bytes)
    (nb_blocks nb_iterations hash_size : nat) (g : rng) :
  pwhash.pwhash password None nb_blocks nb_iterations hash_size g =
  (fst (pwhash.pwhash password (Some (draw SALT_SIZE g)) nb_blocks
          nb_iterations hash_size g), advance SALT_SIZE g).
Proof.
  unfold pwhash.pwhash, mbind, mret, lift, utils.random, utils.ensure.
  repeat match goal with
         | |- context [if ?c then _ else _] => destruct c
         end; reflexivity.
Qed.

Lemma compare_hash_eq (recovered recomputed : bytes) :
  In (length recovered) [16; 32; 64] ->
  length recomputed = length recovered ->
  pwhash.compare_hash recovered recomputed =
  Ok (if bytes_eq_dec recovered recomputed then true else false).
Proof.
  intros Hin Hlen. unfold pwhash.compare_hash. cbv zeta.
  destruct Hin as [E|[E|[E|[]]]]; rewrite <- E; cbn [Nat.eqb];
    rewrite <- E in Hlen.
  - change (crypto_cmp.crypto_verify16 recovered recomputed)
      with (CmpShape.wrapper 16 recovered recomputed).
    now rewrite CmpFacts.wrapper_right_length.
  - change (crypto_cmp.crypto_verify32 recovered recomputed)
      with (CmpShape.wrapper 32 recovered recomputed).
    now rewrite CmpFacts.wrapper_right_length.
  - change (crypto_cmp.crypto_verify64 recovered recomputed)
      with (CmpShape.wrapper 64 recovered recomputed).
    now rewrite CmpFacts.wrapper_right_length.
Qed.

Lemma compare_hash_other_length (recovered recomputed : bytes) :
  ~ In (length recovered) [16; 32; 64] ->
  pwhash.compare_hash recovered recomputed = Raise InvalidLength.
Proof.
  intros Hin. unfold pwhash.compare_hash. cbv zeta.
  destruct (Nat.eqb_spec (length recovered) 16) as [E|_];
    [elim Hin; rewrite E; now left|].
  destruct (Nat.eqb_spec (length recovered) 32) as [E|_];
    [elim Hin; rewrite E; right; now left|].
  destruct (Nat.eqb_spec (length recovered) 64) as [E|_];
    [elim Hin; rewrite E; right; right; now left|].
  reflexivity.
Qed.

Context {ok : MonocypherOk lib} {encok : EncodingOk enc}.

(** [verify] on an encoding of fields whose hash came from the KDF:
    the hash is recomputed from the embedded parameters and compared. *)
Lemma verify_encoded (password other s : bytes) (m t n : nat) :
  pwhash.verify other
    (encode_hash
       {| nb_blocks := m; nb_iterations := t; salt := s;
          hash := crypto_argon2i n m t password s |}) =
  pwhash.compare_hash (crypto_argon2i n m t password s)
    (crypto_argon2i n m t other s).
Proof.
  unfold pwhash.verify. rewrite parse_encode.
  cbn [hash nb_blocks nb_iterations salt]. now rewrite argon2i_length.
Qed.

End PwhashFacts.

(* ================================================================== *)
(** * The claims *)

Import crypto_cmp.

(** C3.  Each constant-time comparator ([crypto_verify16], [crypto_verify32],
    [crypto_verify64], of width 16, 32 and 64): on two byte strings of its
    width it runs one C comparison and returns true when they are equal and
    false when they differ, also when they differ in the last byte only; if
    either has another length it raises [InvalidLength] and no C comparison
    has run (no prefix is compared). *)
Theorem crypto_verify_compares_or_rejects
    (n : nat) (f : bytes -> bytes -> traced bool) (a b : bytes) :
  In (n, f) [(16, crypto_verify16); (32, crypto_verify32);
             (64, crypto_verify64)] ->
  (length a = n -> length b = n ->
     (a = b -> f a b = ([verify_call n a b], Ok true)) /\
     (a <> b -> f a b = ([verify_call n a b], Ok false))) /\
  (forall p x y, a = p ++ [x] -> b = p ++ [y] -> length a = n -> x <> y ->
     f a b = ([verify_call n a b], Ok false)) /\
  (length a <> n \/ length b <> n -> f a b = ([], Raise InvalidLength)).
Proof.
  intros Hin.
  assert (Hf : f = CmpShape.wrapper n).
  { simpl in Hin.
    destruct Hin as [E|[E|[E|[]]]]; inversion E; subst; reflexivity. }
  subst f. destruct (CmpFacts.wrapper_comparator n a b) as [Hsame Hwrong].
  split; [exact Hsame|]. split; [|exact Hwrong].
  intros p x y Ha Hb Hlen Hxy.
  assert (Hlenb : length b = n).
  { rewrite Hb, length_app. rewrite Ha, length_app in Hlen. exact Hlen. }
  destruct (Hsame Hlen Hlenb) as [_ Hdiff]. apply Hdiff.
  rewrite Ha, Hb. intros E. apply app_inv_head in E. congruence.
Qed.

Lemma crypto_verify_compares_or_rejects_witness :
  crypto_verify16 (zeros 16) (zeros 15 ++ [x01]) =
    ([verify_call 16 (zeros 16) (zeros 15 ++ [x01])], Ok false) /\
  crypto_verify16 (zeros 16) (zeros 17) = ([], Raise InvalidLength).
Proof.
  destruct (@crypto_verify_compares_or_rejects 16 crypto_verify16
              (zeros 16) (zeros 15 ++ [x01]) (or_introl eq_refl))
    as [_ [Hlast _]].
  destruct (@crypto_verify_compares_or_rejects 16 crypto_verify16
              (zeros 16) (zeros 17) (or_introl eq_refl))
    as [_ [_ Hwrong]].
  split.
  - apply (Hlast (zeros 15) x00 x01); [reflexivity|reflexivity|reflexivity|].
    discriminate.
  - apply Hwrong. right. vm_compute. discriminate.
Defined.

(** C9.  A [PublicKey] and a [PrivateKey] hold exactly 32 bytes: the
    constructor accepts a byte string of length 32, storing it as it is, and
    raises on any other length; and the bytes of every key a constructor,
    [PrivateKey.generate] or [PrivateKey.public_key] returns have length
    32. *)
Theorem key_holds_32_bytes {lib : Monocypher} :
  (forall b, (length b = 32 ->
                PublicKey.init b = Ok {| PublicKey._pk := b |}) /\
             (length b <> 32 -> PublicKey.init b = Raise InvalidLength)) /\
  (forall b, (length b = 32 ->
                PrivateKey.init b = Ok {| PrivateKey._sk := b |}) /\
             (length b <> 32 -> PrivateKey.init b = Raise InvalidLength)) /\
  (forall b k, PublicKey.init b = Ok k ->
               PublicKey.encode k = b /\ length (PublicKey.encode k) = 32) /\
  (forall b k, PrivateKey.init b = Ok k ->
               PrivateKey.encode k = b /\ length (PrivateKey.encode k) = 32) /\
  (forall g, exists k, PrivateKey.generate g = (Ok k, advance 32 g) /\
                       length (PrivateKey.encode k) = 32) /\
  (forall sk pk, PrivateKey.public_key sk = Ok pk ->
                 length (PublicKey.encode pk) = 32).
Proof.
  repeat split.
  - apply PublicKey_init_ok.
  - intros H. unfold PublicKey.init, PublicKey.KEY_SIZE.
    now rewrite ensure_bytes_with_length_raise.
  - apply PrivateKey_init_ok.
  - intros H. unfold PrivateKey.init, PrivateKey.KEY_SIZE.
    now rewrite ensure_bytes_with_length_raise.
  - apply PublicKey_init_inv in H. now destruct H as [_ ->].
  - apply PublicKey_init_inv in H. now destruct H as [? ->].
  - apply PrivateKey_init_inv in H. now destruct H as [_ ->].
  - apply PrivateKey_init_inv in H. now destruct H as [? ->].
  - intros g. eexists. split; [apply PrivateKey_generate_eq|].
    apply draw_length.
  - intros sk pk H. exact (public_key_inv _ H).
Qed.

(** C5.  For a [PrivateKey] and a [PublicKey] (each built by its
    constructor), [Box(your_sk, their_pk)] is a [SecretBox] whose key, also
    what [shared_key()] returns, is the shared secret of the two: the
    HChaCha20 step applied to their X25519 product.  When the first
    argument is not a [PrivateKey], or the second not a [PublicKey],
    [Box] raises [TypeError]. *)
Theorem box_key_is_shared_secret {lib : Monocypher} {ok : MonocypherOk lib}
    (skb pkb : bytes) (sk : PrivateKey.t) (pk : PublicKey.t) :
  PrivateKey.init skb = Ok sk -> PublicKey.init pkb = Ok pk ->
  (exists box : SecretBox.t,
     Box.init (VPrivateKey sk) (VPublicKey pk) = Ok box /\
     SecretBox._key box = derive_shared_secret skb pkb /\
     Box.shared_key box = derive_shared_secret skb pkb /\
     Box.shared_key box = crypto_hchacha20_kdf (crypto_x25519 skb pkb)) /\
  (forall v w : value,
     (forall k, v <> VPrivateKey k) \/ (forall k, w <> VPublicKey k) ->
     Box.init v w = Raise TypeError).
Proof.
  intros Hsk Hpk.
  apply PrivateKey_init_inv in Hsk. destruct Hsk as [Hsk ->].
  apply PublicKey_init_inv in Hpk. destruct Hpk as [Hpk ->].
  split.
  - eexists. split; [now apply Box_init_eq|]. auto.
  - intros v w [H|H]; unfold Box.init.
    + destruct v; try reflexivity. now elim (H sk).
    + destruct v; try reflexivity.
      destruct w; try reflexivity. now elim (H pk).
Qed.

Lemma box_key_is_shared_secret_witness :
  (exists box : SecretBox.t,
     Box.init (lib := Toy.lib)
       (VPrivateKey {| PrivateKey._sk := zeros 32 |})
       (VPublicKey {| PublicKey._pk := repeat x01 32 |}) = Ok box /\
     Box.shared_key box = repeat x01 32) /\
  Box.init (lib := Toy.lib) (VBytes (zeros 32))
    (VPublicKey {| PublicKey._pk := repeat x01 32 |}) = Raise TypeError.
Proof.
  destruct (@box_key_is_shared_secret Toy.lib ToyFacts.lib_ok
              (zeros 32) (repeat x01 32) _ _ eq_refl eq_refl)
    as [[box [Hbox [_ [Hkey _]]]] Hbad].
  split.
  - exists box. split; [exact Hbox|]. rewrite Hkey. reflexivity.
  - apply Hbad. left. discriminate.
Defined.

(** C7.  Whatever the box, the headless ciphertext and the associated data,
    [decrypt] with no [nonce] argument raises [MissingNonce] and returns no
    plaintext; and [decrypt] raises [MissingNonce] only when neither the
    message nor the [nonce] argument supplies a nonce. *)
Theorem decrypt_without_nonce {lib : Monocypher} :
  (forall (box : SecretBox.t) (ciphertext associated_data : bytes),
     SecretBox.decrypt box (Ciphertext ciphertext) None associated_data =
     Raise MissingNonce) /\
  (forall (box : SecretBox.t) (m : message) (nonce : option bytes)
          (associated_data : bytes),
     SecretBox.decrypt box m nonce associated_data = Raise MissingNonce <->
     nonce = None /\
     match m with
     | Message em => EncryptedMessage.nonce em = None
     | Ciphertext _ => True
     end).
Proof.
  split; [reflexivity|].
  intros box m nonce ad. split.
  - intros H.
    assert (Hsome : forall data n,
              SecretBox.decrypt box (Ciphertext data) (Some n) ad <>
              Raise MissingNonce).
    { intros data n E. apply SecretBox_decrypt_errors in E.
      destruct E as [E|[E|E]]; discriminate. }
    destruct m as [em|data].
    + destruct (EncryptedMessage.nonce em) as [n|] eqn:En.
      * rewrite (SecretBox_decrypt_message _ _ _ _ En) in H.
        now elim (Hsome _ _ H).
      * destruct nonce as [n|]; [|auto].
        exfalso. apply (Hsome (EncryptedMessage.ciphertext em) n).
        rewrite <- H. unfold SecretBox.decrypt. now rewrite En.
    + destruct nonce as [n|]; [|auto]. now elim (Hsome _ _ H).
  - intros [-> Hm]. destruct m as [em|data]; [|reflexivity].
    unfold SecretBox.decrypt. now rewrite Hm.
Qed.

(** C1.  For every 32-byte key [k], 24-byte nonce [n], associated data [a]
    and plaintext [p]: [SecretBox(k)] exists, [encrypt(p, n, a)] returns an
    [EncryptedMessage] without touching the CSPRNG, and [decrypt] of that
    message with [n] and [a] returns [p]; so does [decrypt] of the message
    alone, and [decrypt] of its headless ciphertext with the nonce passed
    explicitly. *)
Theorem secret_box_round_trip {lib : Monocypher} {ok : MonocypherOk lib}
    (k n a p : bytes) (g : rng) :
  length k = 32 -> length n = 24 ->
  exists (box : SecretBox.t) (enc : EncryptedMessage.t),
    SecretBox.init k = Ok box /\
    SecretBox.encrypt box p (Some n) a g = (Ok enc, g) /\
    SecretBox.decrypt box (Message enc) (Some n) a = Ok p /\
    SecretBox.decrypt box (Message enc) None a = Ok p /\
    SecretBox.decrypt box (Ciphertext (EncryptedMessage.ciphertext enc))
      (Some n) a = Ok p.
Proof.
  intros Hk Hn.
  exists {| SecretBox._key := k |}. eexists.
  split; [now apply SecretBox_init_ok|].
  split; [now apply SecretBox_encrypt_eq|].
  assert (H : SecretBox.decrypt {| SecretBox._key := k |}
                (Ciphertext (EncryptedMessage.ciphertext
                   (EncryptedMessage.from_parts n
                      (fst (crypto_lock_aead k n a p))
                      (snd (crypto_lock_aead k n a p))))) (Some n) a = Ok p)
    by (now apply SecretBox_decrypt_locked).
  repeat split; try exact H;
    now rewrite (@SecretBox_decrypt_message _ _ _ n _ _ eq_refl).
Qed.

Lemma secret_box_round_trip_witness :
  exists (box : SecretBox.t) (enc : EncryptedMessage.t),
    SecretBox.init (repeat x07 32) = Ok box /\
    SecretBox.encrypt (lib := Toy.lib) box [x61; x62; x63]
      (Some (zeros 24)) [x2a] Toy.tape = (Ok enc, Toy.tape) /\
    SecretBox.decrypt (lib := Toy.lib) box (Message enc) (Some (zeros 24))
      [x2a] = Ok [x61; x62; x63] /\
    SecretBox.decrypt (lib := Toy.lib) box (Message enc) None [x2a] =
      Ok [x61; x62; x63] /\
    SecretBox.decrypt (lib := Toy.lib) box
      (Ciphertext (EncryptedMessage.ciphertext enc)) (Some (zeros 24))
      [x2a] = Ok [x61; x62; x63].
Proof.
  apply (@secret_box_round_trip Toy.lib ToyFacts.lib_ok (repeat x07 32)
           (zeros 24) [x2a] [x61; x62; x63] Toy.tape);
    reflexivity.
Defined.

(** C4.  For a [SealedBox] built from a constructed key, every message and
    every state of the CSPRNG: [encrypt] draws the next 32 bytes of the
    CSPRNG as the ephemeral private key (a later call draws the 32 bytes
    after them), encrypts the message with the [Box] of that key and the
    recipient's public key under the nonce of 24 zero bytes and no
    associated data, and returns the ephemeral public key (32 bytes), then
    the MAC (16 bytes), then the cipher text (as long as the message):
    [len(msg) + 48] bytes. *)
Theorem sealed_box_encrypt_layout {lib : Monocypher} {ok : MonocypherOk lib}
    (receipient_key : value) (self : SealedBox.t) (msg : bytes) (g : rng) :
  constructed receipient_key -> SealedBox.init receipient_key = Ok self ->
  let esk := draw 32 g in
  let epk := crypto_key_exchange_public_key esk in
  let pk := PublicKey.encode (SealedBox._pk self) in
  let locked := crypto_lock_aead (derive_shared_secret esk pk) (zeros 24) []
                  msg in
  SealedBox.encrypt self msg g =
    (Ok (epk ++ fst locked ++ snd locked), advance 32 g) /\
  length epk = 32 /\ length (fst locked) = 16 /\
  length (snd locked) = length msg /\
  length (epk ++ fst locked ++ snd locked) = length msg + 48 /\
  draw 32 (advance 32 g) = map g (seq 32 32) /\
  exists (ephemeral_sk : PrivateKey.t) (box : SecretBox.t)
         (m : EncryptedMessage.t),
    PrivateKey.generate g = (Ok ephemeral_sk, advance 32 g) /\
    Box.init (VPrivateKey ephemeral_sk) (VPublicKey (SealedBox._pk self)) =
      Ok box /\
    SecretBox.encrypt box msg (Some (zeros 24)) [] (advance 32 g) =
      (Ok m, advance 32 g) /\
    epk ++ fst locked ++ snd locked = epk ++ EncryptedMessage.ciphertext m.
Proof.
  intros Hc Hinit esk epk pk locked.
  pose proof (SealedBox_init_pk_length Hc Hinit) as Hpk.
  assert (Hesk : length esk = 32) by apply draw_length.
  assert (Hepk : length epk = 32) by (now apply public_key_length).
  assert (Hkey : length (derive_shared_secret esk pk) = 32)
    by (now apply derive_shared_secret_length).
  assert (Hbox : Box.init (VPrivateKey {| PrivateKey._sk := esk |})
                   (VPublicKey (SealedBox._pk self)) =
                 Ok {| SecretBox._key := derive_shared_secret esk pk |}).
  { destruct self as [[pkb] sko]. apply Box_init_eq; assumption. }
  assert (Henc : SecretBox.encrypt
                   {| SecretBox._key := derive_shared_secret esk pk |} msg
                   (Some (zeros 24)) [] (advance 32 g) =
                 (Ok (EncryptedMessage.from_parts (zeros 24) (fst locked)
                        (snd locked)), advance 32 g)).
  { apply SecretBox_encrypt_eq; [exact Hkey|apply zeros_length]. }
  split.
  { unfold SealedBox.encrypt, mbind, lift, mret.
    rewrite PrivateKey_generate_eq. cbv beta iota.
    rewrite public_key_eq by assumption. cbv beta iota zeta.
    fold esk. rewrite Hbox. cbv beta iota.
    unfold Box.NONCE_SIZE, SecretBox.NONCE_SIZE.
    rewrite Henc. reflexivity. }
  split; [exact Hepk|].
  split; [apply lock_mac_length|].
  split; [apply lock_text_length|].
  split.
  { rewrite !length_app, Hepk.
    unfold locked. rewrite lock_mac_length, lock_text_length. lia. }
  split; [apply draw_advance|].
  exists {| PrivateKey._sk := esk |}.
  exists {| SecretBox._key := derive_shared_secret esk pk |}.
  eexists. split; [apply PrivateKey_generate_eq|].
  split; [exact Hbox|]. split; [exact Henc|]. reflexivity.
Qed.

Lemma sealed_box_encrypt_layout_witness :
  exists sealed : bytes,
    SealedBox.encrypt (lib := Toy.lib)
      {| SealedBox._pk := {| PublicKey._pk := repeat x01 32 |};
         SealedBox._sk := None |} [x68; x69] Toy.tape =
      (Ok sealed, advance 32 Toy.tape) /\
    length sealed = 2 + 48.
Proof.
  pose proof (@sealed_box_encrypt_layout Toy.lib ToyFacts.lib_ok
                (VPublicKey {| PublicKey._pk := repeat x01 32 |})
                {| SealedBox._pk := {| PublicKey._pk := repeat x01 32 |};
                   SealedBox._sk := None |} [x68; x69] Toy.tape
                (constructed_PublicKey (repeat x01 32) eq_refl) eq_refl)
    as H.
  cbv zeta in H. destruct H as [Henc [_ [_ [_ [Hlen _]]]]].
  eexists. split; [exact Henc|exact Hlen].
Defined.

(** C2, as amended.  For every message and every X25519 key pair, the
    [SealedBox] of the private key decrypts what the [SealedBox] of the
    public key encrypted to the message.  A [SealedBox] of any other
    private key returns on that envelope what the AEAD primitive returns
    under the key exchanged between that private key and the envelope's
    ephemeral public key: [AuthenticationFailed] when the primitive rejects
    the MAC under that key, and no other error. *)
Theorem sealed_box_round_trip {lib : Monocypher} {ok : MonocypherOk lib}
    (skb msg : bytes) (g : rng) (sk : PrivateKey.t) (pk : PublicKey.t)
    (sender receiver : SealedBox.t) :
  PrivateKey.init skb = Ok sk -> PrivateKey.public_key sk = Ok pk ->
  SealedBox.init (VPublicKey pk) = Ok sender ->
  SealedBox.init (VPrivateKey sk) = Ok receiver ->
  exists sealed : bytes,
    SealedBox.encrypt sender msg g = (Ok sealed, advance 32 g) /\
    SealedBox.decrypt receiver sealed = Ok msg /\
    forall (skb' : bytes) (sk' : PrivateKey.t) (other : SealedBox.t),
      PrivateKey.init skb' = Ok sk' ->
      SealedBox.init (VPrivateKey sk') = Ok other ->
      SealedBox.decrypt other sealed =
      match crypto_unlock_aead
              (derive_shared_secret skb' (firstn 32 sealed)) (zeros 24)
              (firstn 16 (skipn 32 sealed)) [] (skipn 16 (skipn 32 sealed))
      with
      | Some plaintext => Ok plaintext
      | None => Raise AuthenticationFailed
      end.
Proof.
  intros Hsk Hpk Hsender Hreceiver.
  apply PrivateKey_init_inv in Hsk. destruct Hsk as [Hskb ->].
  rewrite public_key_eq in Hpk by (auto using public_key_length).
  inversion Hpk; subst pk; clear Hpk.
  cbn [SealedBox.init] in Hsender. inversion Hsender; subst sender.
  rewrite SealedBox_init_private in Hreceiver by exact Hskb.
  inversion Hreceiver; subst receiver.
  set (esk := draw 32 g).
  set (epk := crypto_key_exchange_public_key esk).
  set (key := derive_shared_secret esk (crypto_key_exchange_public_key skb)).
  set (locked := crypto_lock_aead key (zeros 24) [] msg).
  assert (Hesk : length esk = 32) by apply draw_length.
  assert (Hepk : length epk = 32) by (now apply public_key_length).
  assert (Hmac : length (fst locked) = 16) by apply lock_mac_length.
  exists (epk ++ fst locked ++ snd locked).
  assert (Hfirst : firstn 32 (epk ++ fst locked ++ snd locked) = epk).
  { rewrite firstn_app, Hepk, Nat.sub_diag, firstn_O, app_nil_r.
    apply firstn_all2. lia. }
  assert (Hrest : skipn 32 (epk ++ fst locked ++ snd locked) =
                  fst locked ++ snd locked).
  { rewrite skipn_app, Hepk, Nat.sub_diag, skipn_O.
    rewrite skipn_all2 by lia. reflexivity. }
  assert (Hlen : 32 <= length (epk ++ fst locked ++ snd locked))
    by (rewrite length_app; lia).
  split; [|split].
  - rewrite SealedBox_encrypt_eq; [reflexivity|].
    cbn [SealedBox._pk PublicKey._pk]. now apply public_key_length.
  - rewrite SealedBox_decrypt_eq by assumption.
    rewrite Hfirst, Hrest. unfold epk.
    rewrite derive_shared_secret_symmetric by assumption.
    apply SecretBox_decrypt_locked;
      [apply derive_shared_secret_length; auto using public_key_length
      |apply zeros_length].
  - intros skb' sk' other Hsk' Hother.
    apply PrivateKey_init_inv in Hsk'. destruct Hsk' as [Hskb' ->].
    rewrite SealedBox_init_private in Hother by exact Hskb'.
    inversion Hother; subst other.
    rewrite SealedBox_decrypt_eq by assumption.
    apply SecretBox_decrypt_eq.
    + apply derive_shared_secret_length; [exact Hskb'|].
      rewrite Hfirst. exact Hepk.
    + apply zeros_length.
    + rewrite Hrest, length_app. lia.
Qed.

Lemma sealed_box_round_trip_witness :
  exists sealed : bytes,
    SealedBox.encrypt (lib := Toy.lib)
      {| SealedBox._pk := {| PublicKey._pk := repeat x05 32 |};
         SealedBox._sk := None |} [x68; x69] Toy.tape =
      (Ok sealed, advance 32 Toy.tape) /\
    SealedBox.decrypt (lib := Toy.lib)
      {| SealedBox._pk := {| PublicKey._pk := repeat x05 32 |};
         SealedBox._sk := Some {| PrivateKey._sk := repeat x05 32 |} |}
      sealed = Ok [x68; x69].
Proof.
  destruct (@sealed_box_round_trip Toy.lib ToyFacts.lib_ok (repeat x05 32)
              [x68; x69] Toy.tape _ _ _ _ eq_refl eq_refl eq_refl eq_refl)
    as [sealed [Henc [Hdec _]]].
  exists sealed. split; [exact Henc|exact Hdec].
Defined.

(** C2, as stated, fails whatever the primitives: there are more 32-byte
    private keys than 16-byte MACs, so for the empty message two private
    keys get the same envelope from the same ephemeral key, and each of
    them opens it.  No library that meets the contract makes every other
    private key fail. *)
Lemma sealed_box_other_key_may_decrypt :
  ~ exists lib : Monocypher, MonocypherOk lib /\
      forall (skb skb' msg : bytes) (g g' : rng) (sk sk' : PrivateKey.t)
             (pk : PublicKey.t) (sender other : SealedBox.t)
             (sealed : bytes),
        PrivateKey.init skb = Ok sk -> PrivateKey.init skb' = Ok sk' ->
        sk' <> sk ->
        PrivateKey.public_key sk = Ok pk ->
        SealedBox.init (VPublicKey pk) = Ok sender ->
        SealedBox.init (VPrivateKey sk') = Ok other ->
        SealedBox.encrypt sender msg g = (Ok sealed, g') ->
        SealedBox.decrypt other sealed = Raise AuthenticationFailed.
Proof.
  intros [lib [ok Hclaim]].
  set (g := fun _ : nat => x00).
  set (esk := draw 32 g).
  set (epk := crypto_key_exchange_public_key esk).
  set (key := fun skb : bytes =>
                derive_shared_secret esk (crypto_key_exchange_public_key skb)).
  set (h := fun skb : bytes =>
              fst (crypto_lock_aead (key skb) (zeros 24) [] [])).
  assert (Hesk : length esk = 32) by apply draw_length.
  assert (Hepk : length epk = 32) by (now apply public_key_length).
  apply (@CountingFacts.no_injection 32 16 h); [lia| |].
  - intros x _. apply lock_mac_length.
  - intros x y Hx Hy Hxy.
    destruct (bytes_eq_dec x y) as [E|E]; [exact E|exfalso].
    assert (Hempty : forall k,
              snd (crypto_lock_aead k (zeros 24) [] []) = []).
    { intros k. apply length_zero_iff_nil. now rewrite lock_text_length. }
    pose proof (@SealedBox_encrypt_eq lib ok
                  {| SealedBox._pk :=
                       {| PublicKey._pk := crypto_key_exchange_public_key x |};
                     SealedBox._sk := None |} [] g
                  (public_key_length x Hx)) as Henc.
    cbn [SealedBox._pk PublicKey._pk] in Henc.
    fold esk epk in Henc. fold (key x) in Henc. fold (h x) in Henc.
    rewrite Hempty, app_nil_r in Henc.
    assert (Hne : {| PrivateKey._sk := y |} <> {| PrivateKey._sk := x |})
      by (intros F; inversion F; congruence).
    pose proof (Hclaim x y [] g (advance 32 g) _ _ _ _ _ _
                  (PrivateKey_init_ok x Hx) (PrivateKey_init_ok y Hy) Hne
                  (public_key_eq x Hx (public_key_length x Hx)) eq_refl
                  (SealedBox_init_private y Hy) Henc) as Hfail.
    rewrite SealedBox_decrypt_eq in Hfail;
      [|exact Hy|rewrite length_app; lia].
    rewrite firstn_app, skipn_app, Hepk, Nat.sub_diag, firstn_O, skipn_O,
      app_nil_r in Hfail.
    rewrite firstn_all2, skipn_all2 in Hfail by lia.
    cbn [app] in Hfail. unfold epk in Hfail.
    rewrite derive_shared_secret_symmetric in Hfail by assumption.
    fold (key y) in Hfail. rewrite Hxy in Hfail. unfold h in Hfail.
    replace (fst (crypto_lock_aead (key y) (zeros 24) [] []))
      with (fst (crypto_lock_aead (key y) (zeros 24) [] []) ++
            snd (crypto_lock_aead (key y) (zeros 24) [] [])) in Hfail
      by (rewrite Hempty; apply app_nil_r).
    rewrite SecretBox_decrypt_locked in Hfail; [discriminate| |].
    + unfold key. apply derive_shared_secret_length;
        auto using public_key_length.
    + apply zeros_length.
Qed.

(** C6.  [SealedBox.decrypt] raises [RuntimeError] if and only if the box
    was built from a [PublicKey] only.  With a private key, an input
    shorter than the 32-byte prefix does not reach [SecretBox.decrypt]: the
    constructor of the ephemeral [PublicKey] raises [InvalidLength], which
    is no [CryptoError], where [SecretBox.decrypt] on the remainder would
    have raised [MalformedMessage]. *)
Theorem sealed_box_decrypt_failures {lib : Monocypher} :
  (forall (self : SealedBox.t) (sealed : bytes),
     SealedBox.decrypt self sealed = Raise RuntimeError <->
     SealedBox._sk self = None) /\
  (forall (pk : PublicKey.t) (sk : PrivateKey.t) (sealed : bytes),
     length sealed < 32 ->
     SealedBox.decrypt {| SealedBox._pk := pk; SealedBox._sk := Some sk |}
       sealed = Raise InvalidLength /\
     is_CryptoError InvalidLength = false /\
     forall box : SecretBox.t,
       SecretBox.decrypt box (Ciphertext (skipn 32 sealed))
         (Some (zeros 24)) [] = Raise MalformedMessage).
Proof.
  split.
  - intros [pk [sk|]] sealed; split; intros H.
    + now elim (@SealedBox_decrypt_not_RuntimeError _
                  {| SealedBox._pk := pk; SealedBox._sk := Some sk |}
                  sk sealed eq_refl).
    + discriminate.
    + reflexivity.
    + reflexivity.
  - intros pk sk sealed Hlen. split; [now apply SealedBox_decrypt_short|].
    split; [reflexivity|]. intros box. apply SecretBox_decrypt_short.
    rewrite length_skipn. lia.
Qed.

(** C8, as amended.  For every password and every valid parameter
    combination whose [hash_size] is 16, 32 or 64 (a salt of at least 8
    bytes or none, [nb_blocks >= 8], [nb_iterations >= 1]): [pwhash]
    returns an encoding that parses to the parameters, the salt used (the
    given one, or the next [SALT_SIZE] bytes of the CSPRNG) and the hash;
    [verify] of the password against it returns true; and
    [verify] of any password against it returns whether the hash
    recomputed from the parsed parameters, the parsed salt and that
    password equals the parsed hash (false exactly when they differ). *)
Theorem pwhash_verify {lib : Monocypher} {ok : MonocypherOk lib}
    {enc : Encoding} {encok : EncodingOk enc}
    (password : bytes) (salt : option bytes)
    (nb_blocks nb_iterations hash_size : nat) (g : rng) :
  In hash_size [16; 32; 64] -> 8 <= nb_blocks -> 1 <= nb_iterations ->
  (forall s, salt = Some s -> 8 <= length s) ->
  exists (encoded used : bytes),
    used = match salt with Some s => s | None => draw SALT_SIZE g end /\
    pwhash.pwhash password salt nb_blocks nb_iterations hash_size g =
      (Ok encoded,
       match salt with Some _ => g | None => advance SALT_SIZE g end) /\
    parse_hash encoded =
      Some {| nb_blocks := nb_blocks; nb_iterations := nb_iterations;
              salt := used;
              hash := crypto_argon2i hash_size nb_blocks nb_iterations
                        password used |} /\
    pwhash.verify password encoded = Ok true /\
    forall other : bytes,
      pwhash.verify other encoded =
      Ok (if bytes_eq_dec
               (crypto_argon2i hash_size nb_blocks nb_iterations password
                  used)
               (crypto_argon2i hash_size nb_blocks nb_iterations other used)
          then true else false).
Proof.
  intros Hh Hb Hi Hs.
  assert (Hh4 : 4 <= hash_size)
    by (destruct Hh as [<-|[<-|[<-|[]]]]; lia).
  set (used := match salt with Some s => s | None => draw SALT_SIZE g end).
  assert (Hused : 8 <= length used).
  { unfold used. destruct salt as [s|]; [now apply Hs|].
    rewrite draw_length. apply salt_size_ok. }
  exists (encode_hash
            {| nb_blocks := nb_blocks; nb_iterations := nb_iterations;
               salt := used;
               hash := crypto_argon2i hash_size nb_blocks nb_iterations
                         password used |}).
  exists used.
  assert (Hcmp : forall other,
            pwhash.verify other
              (encode_hash
                 {| nb_blocks := nb_blocks; nb_iterations := nb_iterations;
                    salt := used;
                    hash := crypto_argon2i hash_size nb_blocks nb_iterations
                              password used |}) =
            Ok (if bytes_eq_dec
                     (crypto_argon2i hash_size nb_blocks nb_iterations
                        password used)
                     (crypto_argon2i hash_size nb_blocks nb_iterations other
                        used)
                then true else false)).
  { intros other. rewrite verify_encoded.
    apply compare_hash_eq; rewrite !argon2i_length; auto. }
  split; [reflexivity|].
  split; [|split; [apply parse_encode|split; [|exact Hcmp]]].
  - destruct salt as [s|].
    + now apply pwhash_eq.
    + rewrite pwhash_random_salt, pwhash_eq by assumption. reflexivity.
  - rewrite Hcmp. now destruct (bytes_eq_dec _ _).
Qed.

Lemma pwhash_verify_witness :
  exists (encoded : bytes),
    pwhash.pwhash (lib := Toy.lib) (enc := Toy.enc) [x70; x77]
      (Some (zeros 8)) 8 1 16 Toy.tape = (Ok encoded, Toy.tape) /\
    pwhash.verify (lib := Toy.lib) (enc := Toy.enc) [x70; x77] encoded =
      Ok true.
Proof.
  destruct (@pwhash_verify Toy.lib ToyFacts.lib_ok Toy.enc ToyFacts.enc_ok
              [x70; x77] (Some (zeros 8)) 8 1 16 Toy.tape)
    as [encoded [used [_ [Hhash [_ [Hverify _]]]]]].
  - left. reflexivity.
  - lia.
  - lia.
  - intros s E. inversion E. vm_compute. lia.
  - exists encoded. split; [exact Hhash|exact Hverify].
Defined.

(** C8, as stated, fails twice.  A hash of 4 bytes satisfies the stated
    preconditions but has no comparator, so [verify] of the right password
    raises; and passwords being more numerous than hashes, two passwords
    share a 16-byte hash under the same parameters and salt, so [verify]
    accepts a password other than the hashed one.  Neither half holds for
    any primitives and encoding that meet their contracts. *)
Lemma pwhash_verify_not_for_all :
  (~ exists (lib : Monocypher) (enc : Encoding),
       MonocypherOk lib /\ EncodingOk enc /\
       forall (password salt : bytes)
              (nb_blocks nb_iterations hash_size : nat) (g g' : rng)
              (encoded : bytes),
         4 <= hash_size -> 8 <= nb_blocks -> 1 <= nb_iterations ->
         8 <= length salt ->
         pwhash.pwhash password (Some salt) nb_blocks nb_iterations
           hash_size g = (Ok encoded, g') ->
         pwhash.verify password encoded = Ok true) /\
  (~ exists (lib : Monocypher) (enc : Encoding),
       MonocypherOk lib /\ EncodingOk enc /\
       forall (password wrong_password salt : bytes)
              (nb_blocks nb_iterations hash_size : nat) (g g' : rng)
              (encoded : bytes),
         4 <= hash_size -> 8 <= nb_blocks -> 1 <= nb_iterations ->
         8 <= length salt -> wrong_password <> password ->
         pwhash.pwhash password (Some salt) nb_blocks nb_iterations
           hash_size g = (Ok encoded, g') ->
         pwhash.verify wrong_password encoded = Ok false).
Proof.
  split.
  - intros [lib [enc [ok [encok Hclaim]]]].
    assert (H8 : 8 <= length (zeros 8)) by (rewrite zeros_length; lia).
    pose proof (Hclaim [] (zeros 8) 8 1 4 (fun _ => x00) _ _
                  (le_n 4) (le_n 8) (le_n 1) H8
                  (pwhash_eq [] (zeros 8) (fun _ => x00)
                     (le_n 4) (le_n 8) (le_n 1) H8)) as Htrue.
    rewrite verify_encoded, compare_hash_other_length in Htrue;
      [discriminate|].
    rewrite argon2i_length. simpl. intros [E|[E|[E|[]]]]; discriminate.
  - intros [lib [enc [ok [encok Hclaim]]]].
    assert (H8 : 8 <= length (zeros 8)) by (rewrite zeros_length; lia).
    apply (@CountingFacts.no_injection 17 16
             (fun password => crypto_argon2i 16 8 1 password (zeros 8)));
      [lia| |].
    + intros x _. apply argon2i_length.
    + intros x y _ _ Hxy.
      destruct (bytes_eq_dec y x) as [E|E]; [now symmetry|exfalso].
      assert (H16 : 4 <= 16) by lia.
      pose proof (Hclaim x y (zeros 8) 8 1 16 (fun _ => x00) _ _
                    H16 (le_n 8) (le_n 1) H8 E
                    (pwhash_eq x (zeros 8) (fun _ => x00)
                       H16 (le_n 8) (le_n 1) H8)) as Hfalse.
      rewrite verify_encoded, compare_hash_eq in Hfalse.
      * destruct (bytes_eq_dec _ _) as [_|F]; [discriminate|].
        now elim F.
      * rewrite argon2i_length. now left.
      * now rewrite !argon2i_length.
Qed.

(* ================================================================== *)
(** * Runs on concrete inputs *)

Example crypto_verify16_equal :
  crypto_verify16 (repeat x41 16) (repeat x41 16) =
  ([verify_call 16 (repeat x41 16) (repeat x41 16)], Ok true).
Proof. reflexivity. Qed.

Example crypto_verify32_last_byte :
  snd (crypto_verify32 (zeros 32) (zeros 31 ++ [x80])) = Ok false.
Proof. reflexivity. Qed.

Example crypto_verify64_longer_input :
  crypto_verify64 (zeros 64) (zeros 65) = ([], Raise InvalidLength).
Proof. reflexivity. Qed.

Example PublicKey_of_31_bytes :
  PublicKey.init (zeros 31) = Raise InvalidLength.
Proof. reflexivity. Qed.

Example Box_of_two_public_keys :
  Box.init (lib := Toy.lib) (VPublicKey {| PublicKey._pk := zeros 32 |})
    (VPublicKey {| PublicKey._pk := zeros 32 |}) = Raise TypeError.
Proof. reflexivity. Qed.

Example SealedBox_round_trip_run :
  match SealedBox.encrypt (lib := Toy.lib)
          {| SealedBox._pk := {| PublicKey._pk := repeat x05 32 |};
             SealedBox._sk := None |} [x68; x69] Toy.tape with
  | (Ok sealed, _) =>
      length sealed = 50 /\
      SealedBox.decrypt (lib := Toy.lib)
        {| SealedBox._pk := {| PublicKey._pk := repeat x05 32 |};
           SealedBox._sk := Some {| PrivateKey._sk := repeat x05 32 |} |}
        sealed = Ok [x68; x69]
  | (Raise _, _) => False
  end.
Proof. vm_compute. split; reflexivity. Qed.

Example SealedBox_decrypt_empty_input :
  SealedBox.decrypt (lib := Toy.lib)
    {| SealedBox._pk := {| PublicKey._pk := repeat x05 32 |};
       SealedBox._sk := Some {| PrivateKey._sk := repeat x05 32 |} |} [] =
  Raise InvalidLength.
Proof. reflexivity. Qed.

Example SealedBox_decrypt_without_mac :
  SealedBox.decrypt (lib := Toy.lib)
    {| SealedBox._pk := {| PublicKey._pk := repeat x05 32 |};
       SealedBox._sk := Some {| PrivateKey._sk := repeat x05 32 |} |}
    (zeros 40) = Raise MalformedMessage.
Proof. reflexivity. Qed.

Example SecretBox_decrypt_tampered :
  SecretBox.decrypt (lib := Toy.lib) {| SecretBox._key := repeat x07 32 |}
    (Ciphertext (repeat x01 16 ++ [x63; x62; x61])) (Some (zeros 24)) [] =
  Raise AuthenticationFailed.
Proof. reflexivity. Qed.

Example verify_hash_of_4_bytes :
  match pwhash.pwhash (lib := Toy.lib) (enc := Toy.enc) [x70; x77]
          (Some (zeros 8)) 8 1 4 Toy.tape with
  | (Ok encoded, _) =>
      pwhash.verify (lib := Toy.lib) (enc := Toy.enc) [x70; x77] encoded =
      Raise InvalidLength
  | (Raise _, _) => False
  end.
Proof. reflexivity. Qed.

Example pwhash_short_salt :
  fst (pwhash.pwhash (lib := Toy.lib) (enc := Toy.enc) [x70; x77]
         (Some (zeros 7)) 8 1 16 Toy.tape) = Raise InvalidParameter.
Proof. reflexivity. Qed.

(* ================================================================== *)
(** * Further properties of [public.py] *)

(** ** Equality and hashing of keys *)

Lemma crypto_verify32_eq (a b : bytes) :
  length a = 32 -> length b = 32 ->
  crypto_verify32 a b =
  ([verify_call 32 a b], Ok (if bytes_eq_dec a b then true else false)).
Proof. apply (@CmpFacts.wrapper_right_length 32). Qed.

(** X1.  For two constructed public keys, [a == b] runs exactly one
    32-byte constant-time comparison, never raises, and is true exactly
    when the keys hold the same bytes; then their hashes agree.  The
    verdict does not depend on the side the comparison starts from.
    Against anything that is not a [PublicKey] (a [PrivateKey] of the same
    bytes included) the result is false and no comparison runs. *)
Theorem PublicKey_eq_decides (ab bb : bytes) (a b : PublicKey.t)
    (py_hash : bytes -> Z) :
  PublicKey.init ab = Ok a -> PublicKey.init bb = Ok b ->
  (exists r : bool,
     PublicKey_eq a (VPublicKey b) = ([verify_call 32 bb ab], Ok r) /\
     (r = true <-> a = b) /\
     (r = true -> PublicKey_hash py_hash a = PublicKey_hash py_hash b)) /\
  snd (PublicKey_eq a (VPublicKey b)) = snd (PublicKey_eq b (VPublicKey a)) /\
  (forall v : value, (forall k, v <> VPublicKey k) ->
     PublicKey_eq a v = ([], Ok false)).
Proof.
  intros Ha Hb.
  apply PublicKey_init_inv in Ha. destruct Ha as [Hla ->].
  apply PublicKey_init_inv in Hb. destruct Hb as [Hlb ->].
  unfold PublicKey_eq. cbn [PublicKey._pk].
  rewrite !crypto_verify32_eq by assumption. cbn [snd].
  split; [|split].
  - eexists. split; [reflexivity|].
    destruct (bytes_eq_dec bb ab) as [E|E]; split.
    + subst. tauto.
    + subst. reflexivity.
    + split; [discriminate|]. intros F. inversion F. congruence.
    + discriminate.
  - destruct (bytes_eq_dec bb ab), (bytes_eq_dec ab bb); congruence.
  - intros v Hv. destruct v; try reflexivity. now elim (Hv pk).
Qed.

Lemma PublicKey_eq_decides_witness :
  snd (PublicKey_eq {| PublicKey._pk := zeros 32 |}
         (VPublicKey {| PublicKey._pk := zeros 31 ++ [x01] |})) =
    snd (PublicKey_eq {| PublicKey._pk := zeros 31 ++ [x01] |}
           (VPublicKey {| PublicKey._pk := zeros 32 |})) /\
  PublicKey_eq {| PublicKey._pk := zeros 32 |}
    (VPrivateKey {| PrivateKey._sk := zeros 32 |}) = ([], Ok false).
Proof.
  destruct (@PublicKey_eq_decides (zeros 32) (zeros 31 ++ [x01]) _ _
              (fun b => Z.of_nat (length b)) eq_refl eq_refl)
    as [_ [Hsym Hother]].
  split; [exact Hsym|]. apply Hother. discriminate.
Defined.

(** X2.  The same for two constructed private keys: one 32-byte
    constant-time comparison, no exception, true exactly when the bytes
    are the same, equal keys hash alike; against anything that is not a
    [PrivateKey] (a [PublicKey] of the same bytes included) the result is
    false and no comparison runs. *)
Theorem PrivateKey_eq_decides (ab bb : bytes) (a b : PrivateKey.t)
    (py_hash : bytes -> Z) :
  PrivateKey.init ab = Ok a -> PrivateKey.init bb = Ok b ->
  (exists r : bool,
     PrivateKey_eq a (VPrivateKey b) = ([verify_call 32 bb ab], Ok r) /\
     (r = true <-> a = b) /\
     (r = true -> PrivateKey_hash py_hash a = PrivateKey_hash py_hash b)) /\
  snd (PrivateKey_eq a (VPrivateKey b)) =
    snd (PrivateKey_eq b (VPrivateKey a)) /\
  (forall v : value, (forall k, v <> VPrivateKey k) ->
     PrivateKey_eq a v = ([], Ok false)).
Proof.
  intros Ha Hb.
  apply PrivateKey_init_inv in Ha. destruct Ha as [Hla ->].
  apply PrivateKey_init_inv in Hb. destruct Hb as [Hlb ->].
  unfold PrivateKey_eq. cbn [PrivateKey._sk].
  rewrite !crypto_verify32_eq by assumption. cbn [snd].
  split; [|split].
  - eexists. split; [reflexivity|].
    destruct (bytes_eq_dec bb ab) as [E|E]; split.
    + subst. tauto.
    + subst. reflexivity.
    + split; [discriminate|]. intros F. inversion F. congruence.
    + discriminate.
  - destruct (bytes_eq_dec bb ab), (bytes_eq_dec ab bb); congruence.
  - intros v Hv. destruct v; try reflexivity. now elim (Hv sk).
Qed.

Lemma PrivateKey_eq_decides_witness :
  snd (PrivateKey_eq {| PrivateKey._sk := repeat x09 32 |}
         (VPrivateKey {| PrivateKey._sk := repeat x09 32 |})) = Ok true /\
  PrivateKey_eq {| PrivateKey._sk := repeat x09 32 |}
    (VPublicKey {| PublicKey._pk := repeat x09 32 |}) = ([], Ok false).
Proof.
  destruct (@PrivateKey_eq_decides (repeat x09 32) (repeat x09 32) _ _
              (fun b => Z.of_nat (length b)) eq_refl eq_refl)
    as [[r [Hr [Hiff _]]] [_ Hother]].
  split.
  - rewrite Hr. cbn [snd]. f_equal. now apply Hiff.
  - apply Hother. discriminate.
Defined.

(** X3.  The bytes of a key rebuild the key: for a key [k] a constructor
    returned, the constructor applied to [bytes(k)] returns [k] again
    (it does not raise), for public and for private keys. *)
Theorem key_bytes_round_trip :
  (forall (b : bytes) (k : PublicKey.t),
     PublicKey.init b = Ok k -> PublicKey.init (PublicKey.encode k) = Ok k) /\
  (forall (b : bytes) (k : PrivateKey.t),
     PrivateKey.init b = Ok k ->
     PrivateKey.init (PrivateKey.encode k) = Ok k).
Proof.
  split; intros b k H.
  - apply PublicKey_init_inv in H. destruct H as [Hl ->].
    now apply PublicKey_init_ok.
  - apply PrivateKey_init_inv in H. destruct H as [Hl ->].
    now apply PrivateKey_init_ok.
Qed.

(** X4.  [PrivateKey.generate()] never raises and consumes 32 bytes of the
    CSPRNG; with a C library that returns the sizes it declares, the
    generated key always has a public key, the 32 bytes
    [crypto_key_exchange_public_key] derives from it. *)
Theorem generated_key_has_public_key {lib : Monocypher}
    {ok : MonocypherOk lib} (g : rng) :
  exists (sk : PrivateKey.t) (pk : PublicKey.t),
    PrivateKey.generate g = (Ok sk, advance 32 g) /\
    PrivateKey.encode sk = draw 32 g /\
    PrivateKey.public_key sk = Ok pk /\
    PublicKey.encode pk = crypto_key_exchange_public_key (draw 32 g) /\
    length (PublicKey.encode pk) = 32.
Proof.
  assert (H : length (draw 32 g) = 32) by apply draw_length.
  exists {| PrivateKey._sk := draw 32 g |}. eexists.
  split; [apply PrivateKey_generate_eq|]. split; [reflexivity|].
  split; [apply public_key_eq; auto using public_key_length|].
  split; [reflexivity|]. now apply public_key_length.
Qed.

Lemma generated_key_has_public_key_witness :
  exists (sk : PrivateKey.t) (pk : PublicKey.t),
    PrivateKey.generate Toy.tape = (Ok sk, advance 32 Toy.tape) /\
    PrivateKey.public_key (lib := Toy.lib) sk = Ok pk.
Proof.
  destruct (@generated_key_has_public_key Toy.lib ToyFacts.lib_ok Toy.tape)
    as [sk [pk [Hgen [_ [Hpk _]]]]].
  exists sk, pk. split; [exact Hgen|exact Hpk].
Defined.

(** X5.  [public_key] respects equality: when two constructed private keys
    compare equal, both have a public key and the two public keys compare
    equal. *)
Theorem public_key_respects_eq {lib : Monocypher} {ok : MonocypherOk lib}
    (ab bb : bytes) (a b : PrivateKey.t) :
  PrivateKey.init ab = Ok a -> PrivateKey.init bb = Ok b ->
  snd (PrivateKey_eq a (VPrivateKey b)) = Ok true ->
  exists pa pb : PublicKey.t,
    PrivateKey.public_key a = Ok pa /\ PrivateKey.public_key b = Ok pb /\
    snd (PublicKey_eq pa (VPublicKey pb)) = Ok true.
Proof.
  intros Ha Hb Heq.
  apply PrivateKey_init_inv in Ha. destruct Ha as [Hla ->].
  apply PrivateKey_init_inv in Hb. destruct Hb as [Hlb ->].
  unfold PrivateKey_eq in Heq. cbn [PrivateKey._sk] in Heq.
  rewrite crypto_verify32_eq in Heq by assumption. cbn [snd] in Heq.
  destruct (bytes_eq_dec bb ab) as [E|E]; [subst bb|discriminate].
  pose proof (public_key_length ab Hla) as Hpk.
  eexists. eexists.
  split; [now apply public_key_eq|]. split; [now apply public_key_eq|].
  unfold PublicKey_eq. cbn [PublicKey._pk].
  rewrite crypto_verify32_eq by assumption. cbn [snd].
  now destruct (bytes_eq_dec _ _).
Qed.

Lemma public_key_respects_eq_witness :
  exists pa pb : PublicKey.t,
    PrivateKey.public_key (lib := Toy.lib)
      {| PrivateKey._sk := repeat x09 32 |} = Ok pa /\
    PrivateKey.public_key (lib := Toy.lib)
      {| PrivateKey._sk := repeat x09 32 |} = Ok pb /\
    snd (PublicKey_eq pa (VPublicKey pb)) = Ok true.
Proof.
  apply (@public_key_respects_eq Toy.lib ToyFacts.lib_ok
           (repeat x09 32) (repeat x09 32) _ _ eq_refl eq_refl).
  reflexivity.
Defined.

(** ** Boxes between two parties *)

Section BoxFacts.
Context {lib : Monocypher} {ok : MonocypherOk lib}.

(** The envelope an ephemeral key [esk] seals for the public key of [skb]
    opens under [skb]. *)
Lemma SealedBox_decrypt_sealed (pk0 : PublicKey.t) (skb esk msg : bytes) :
  length skb = 32 -> length esk = 32 ->
  SealedBox.decrypt
    {| SealedBox._pk := pk0;
       SealedBox._sk := Some {| PrivateKey._sk := skb |} |}
    (crypto_key_exchange_public_key esk ++
     fst (crypto_lock_aead
            (derive_shared_secret esk (crypto_key_exchange_public_key skb))
            (zeros 24) [] msg) ++
     snd (crypto_lock_aead
            (derive_shared_secret esk (crypto_key_exchange_public_key skb))
            (zeros 24) [] msg)) = Ok msg.
Proof.
  intros Hskb Hesk.
  set (epk := crypto_key_exchange_public_key esk).
  set (locked := crypto_lock_aead _ _ _ _).
  assert (Hepk : length epk = 32) by (now apply public_key_length).
  rewrite SealedBox_decrypt_eq;
    [|exact Hskb|rewrite length_app; lia].
  rewrite firstn_app, skipn_app, Hepk, Nat.sub_diag, firstn_O, skipn_O,
    app_nil_r.
  rewrite firstn_all2, skipn_all2 by lia. cbn [app].
  unfold epk. rewrite derive_shared_secret_symmetric by assumption.
  apply SecretBox_decrypt_locked;
    [apply derive_shared_secret_length; auto using public_key_length
    |apply zeros_length].
Qed.

End BoxFacts.

(** X6.  [SealedBox(key)], for an object of the run: built from a
    [PublicKey] it holds that key and no private key; built from a
    [PrivateKey] (with a C library that returns the sizes it declares) it
    holds the key and its public key; it raises exactly when the object is
    neither, and then it raises [TypeError]. *)
Theorem SealedBox_init_cases {lib : Monocypher} {ok : MonocypherOk lib}
    (receipient_key : value) :
  constructed receipient_key ->
  (forall pk, receipient_key = VPublicKey pk ->
     SealedBox.init receipient_key =
     Ok {| SealedBox._pk := pk; SealedBox._sk := None |}) /\
  (forall sk, receipient_key = VPrivateKey sk ->
     exists pk, PrivateKey.public_key sk = Ok pk /\
       SealedBox.init receipient_key =
       Ok {| SealedBox._pk := pk; SealedBox._sk := Some sk |}) /\
  (forall e, SealedBox.init receipient_key = Raise e <->
     e = TypeError /\
     (forall k, receipient_key <> VPublicKey k) /\
     (forall k, receipient_key <> VPrivateKey k)).
Proof.
  intros Hc. split; [|split].
  - intros pk ->. reflexivity.
  - intros sk ->. inversion Hc as [| | |b sk' Hsk]; subst.
    apply PrivateKey_init_inv in Hsk. destruct Hsk as [Hl ->].
    eexists. split.
    + apply public_key_eq; auto using public_key_length.
    + now apply SealedBox_init_private.
  - intros e. destruct Hc as [|b|b pk Hpk|b sk Hsk].
    + cbn [SealedBox.init]. split.
      * intros H. inversion H. repeat split; discriminate.
      * intros [-> _]. reflexivity.
    + cbn [SealedBox.init]. split.
      * intros H. inversion H. repeat split; discriminate.
      * intros [-> _]. reflexivity.
    + cbn [SealedBox.init]. split; [discriminate|].
      intros [_ [H _]]. now elim (H pk).
    + apply PrivateKey_init_inv in Hsk. destruct Hsk as [Hl ->].
      rewrite SealedBox_init_private by exact Hl. split; [discriminate|].
      intros [_ [_ H]]. now elim (H {| PrivateKey._sk := b |}).
Qed.

Lemma SealedBox_init_cases_witness :
  SealedBox.init (lib := Toy.lib) (VBytes (zeros 32)) = Raise TypeError /\
  SealedBox.init (lib := Toy.lib)
    (VPublicKey {| PublicKey._pk := zeros 32 |}) =
  Ok {| SealedBox._pk := {| PublicKey._pk := zeros 32 |};
        SealedBox._sk := None |}.
Proof.
  split.
  - apply (@SealedBox_init_cases Toy.lib ToyFacts.lib_ok (VBytes (zeros 32))
             (constructed_Bytes (zeros 32))).
    repeat split; discriminate.
  - apply (@SealedBox_init_cases Toy.lib ToyFacts.lib_ok
             (VPublicKey {| PublicKey._pk := zeros 32 |})
             (constructed_PublicKey (zeros 32) eq_refl)).
    reflexivity.
Defined.

(** X7.  A [SealedBox] built from a private key encrypts to itself: what
    its [encrypt] returns, its own [decrypt] opens to the message, for
    every message and every state of the CSPRNG. *)
Theorem sealed_box_self_round_trip {lib : Monocypher}
    {ok : MonocypherOk lib} (skb msg : bytes) (g : rng)
    (sk : PrivateKey.t) (self : SealedBox.t) :
  PrivateKey.init skb = Ok sk ->
  SealedBox.init (VPrivateKey sk) = Ok self ->
  exists sealed : bytes,
    SealedBox.encrypt self msg g = (Ok sealed, advance 32 g) /\
    SealedBox.decrypt self sealed = Ok msg.
Proof.
  intros Hsk Hself.
  apply PrivateKey_init_inv in Hsk. destruct Hsk as [Hskb ->].
  rewrite SealedBox_init_private in Hself by exact Hskb.
  inversion Hself; subst self.
  eexists. split.
  - rewrite SealedBox_encrypt_eq; [reflexivity|].
    cbn [SealedBox._pk PublicKey._pk]. now apply public_key_length.
  - cbn [SealedBox._pk PublicKey._pk].
    apply SealedBox_decrypt_sealed; [exact Hskb|apply draw_length].
Qed.

Lemma sealed_box_self_round_trip_witness :
  exists (self : SealedBox.t) (sealed : bytes),
    SealedBox.init (lib := Toy.lib)
      (VPrivateKey {| PrivateKey._sk := repeat x05 32 |}) = Ok self /\
    SealedBox.encrypt (lib := Toy.lib) self [] Toy.tape =
      (Ok sealed, advance 32 Toy.tape) /\
    SealedBox.decrypt (lib := Toy.lib) self sealed = Ok [].
Proof.
  eexists.
  destruct (@sealed_box_self_round_trip Toy.lib ToyFacts.lib_ok
              (repeat x05 32) [] Toy.tape _ _ eq_refl eq_refl)
    as [sealed [Henc Hdec]].
  exists sealed. split; [reflexivity|]. split; [exact Henc|exact Hdec].
Defined.

(** X8.  The two parties of an exchange hold the same key: for two
    constructed private keys and their public keys, [Box(a_sk, b_pk)] and
    [Box(b_sk, a_pk)] both exist and their [shared_key()] are equal. *)
Theorem box_shared_key_symmetric {lib : Monocypher} {ok : MonocypherOk lib}
    (ab bb : bytes) (a_sk b_sk : PrivateKey.t) (a_pk b_pk : PublicKey.t) :
  PrivateKey.init ab = Ok a_sk -> PrivateKey.init bb = Ok b_sk ->
  PrivateKey.public_key a_sk = Ok a_pk ->
  PrivateKey.public_key b_sk = Ok b_pk ->
  exists mine theirs : SecretBox.t,
    Box.init (VPrivateKey a_sk) (VPublicKey b_pk) = Ok mine /\
    Box.init (VPrivateKey b_sk) (VPublicKey a_pk) = Ok theirs /\
    Box.shared_key mine = Box.shared_key theirs.
Proof.
  intros Ha Hb Hapk Hbpk.
  apply PrivateKey_init_inv in Ha. destruct Ha as [Hla ->].
  apply PrivateKey_init_inv in Hb. destruct Hb as [Hlb ->].
  rewrite public_key_eq in Hapk, Hbpk by (auto using public_key_length).
  inversion Hapk; subst a_pk. inversion Hbpk; subst b_pk.
  eexists. eexists.
  split; [apply Box_init_eq; auto using public_key_length|].
  split; [apply Box_init_eq; auto using public_key_length|].
  unfold Box.shared_key. cbn [SecretBox._key].
  now apply derive_shared_secret_symmetric.
Qed.

Lemma box_shared_key_symmetric_witness :
  exists mine theirs : SecretBox.t,
    Box.init (lib := Toy.lib)
      (VPrivateKey {| PrivateKey._sk := repeat x03 32 |})
      (VPublicKey {| PublicKey._pk := repeat x05 32 |}) = Ok mine /\
    Box.init (lib := Toy.lib)
      (VPrivateKey {| PrivateKey._sk := repeat x05 32 |})
      (VPublicKey {| PublicKey._pk := repeat x03 32 |}) = Ok theirs /\
    Box.shared_key mine = Box.shared_key theirs.
Proof.
  apply (@box_shared_key_symmetric Toy.lib ToyFacts.lib_ok
           (repeat x03 32) (repeat x05 32) _ _ _ _
           eq_refl eq_refl eq_refl eq_refl).
Defined.

(** X9.  What one party's [Box] encrypts, the other party's [Box]
    decrypts: for two constructed private keys and their public keys,
    every message, 24-byte nonce and associated data,
    [Box(b_sk, a_pk).decrypt(Box(a_sk, b_pk).encrypt(msg, nonce, ad), ad)]
    is [msg], the nonce being read from the message. *)
Theorem box_round_trip_between_parties {lib : Monocypher}
    {ok : MonocypherOk lib}
    (ab bb msg nonce ad : bytes) (g : rng)
    (a_sk b_sk : PrivateKey.t) (a_pk b_pk : PublicKey.t)
    (mine theirs : SecretBox.t) :
  PrivateKey.init ab = Ok a_sk -> PrivateKey.init bb = Ok b_sk ->
  PrivateKey.public_key a_sk = Ok a_pk ->
  PrivateKey.public_key b_sk = Ok b_pk ->
  Box.init (VPrivateKey a_sk) (VPublicKey b_pk) = Ok mine ->
  Box.init (VPrivateKey b_sk) (VPublicKey a_pk) = Ok theirs ->
  length nonce = 24 ->
  exists enc : EncryptedMessage.t,
    SecretBox.encrypt mine msg (Some nonce) ad g = (Ok enc, g) /\
    SecretBox.decrypt theirs (Message enc) None ad = Ok msg.
Proof.
  intros Ha Hb Hapk Hbpk Hmine Htheirs Hn.
  apply PrivateKey_init_inv in Ha. destruct Ha as [Hla ->].
  apply PrivateKey_init_inv in Hb. destruct Hb as [Hlb ->].
  rewrite public_key_eq in Hapk, Hbpk by (auto using public_key_length).
  inversion Hapk; subst a_pk. inversion Hbpk; subst b_pk.
  rewrite Box_init_eq in Hmine, Htheirs by (auto using public_key_length).
  inversion Hmine; subst mine. inversion Htheirs; subst theirs.
  rewrite (derive_shared_secret_symmetric bb ab) by assumption.
  assert (Hkey : length (derive_shared_secret ab
                           (crypto_key_exchange_public_key bb)) = 32)
    by (apply derive_shared_secret_length; auto using public_key_length).
  set (key := derive_shared_secret ab (crypto_key_exchange_public_key bb))
    in *.
  exists (EncryptedMessage.from_parts nonce
            (fst (crypto_lock_aead key nonce ad msg))
            (snd (crypto_lock_aead key nonce ad msg))).
  split; [now apply SecretBox_encrypt_eq|].
  rewrite SecretBox_decrypt_message with (n := nonce) by reflexivity.
  now apply SecretBox_decrypt_locked.
Qed.

Lemma box_round_trip_between_parties_witness :
  exists enc : EncryptedMessage.t,
    SecretBox.encrypt (lib := Toy.lib)
      {| SecretBox._key := Toy.xor_bytes (repeat x03 32) (repeat x05 32) |}
      [x68; x69] (Some (zeros 24)) [x2a] Toy.tape = (Ok enc, Toy.tape) /\
    SecretBox.decrypt (lib := Toy.lib)
      {| SecretBox._key := Toy.xor_bytes (repeat x05 32) (repeat x03 32) |}
      (Message enc) None [x2a] = Ok [x68; x69].
Proof.
  apply (@box_round_trip_between_parties Toy.lib ToyFacts.lib_ok
           (repeat x03 32) (repeat x05 32) [x68; x69] (zeros 24) [x2a]
           Toy.tape _ _ _ _ _ _
           eq_refl eq_refl eq_refl eq_refl eq_refl eq_refl eq_refl).
Defined.

(** X10.  With a private key and an input of at least 32 bytes,
    [SealedBox.decrypt] fails with a [CryptoError] only: an input shorter
    than 48 bytes (no room for a MAC) is [MalformedMessage]; a longer one
    is opened by the AEAD primitive under the key exchanged with its first
    32 bytes, so it is a plaintext or [AuthenticationFailed]. *)
Theorem sealed_box_decrypt_long_input {lib : Monocypher}
    {ok : MonocypherOk lib}
    (skb sealed : bytes) (sk : PrivateKey.t) (pk : PublicKey.t) :
  PrivateKey.init skb = Ok sk -> 32 <= length sealed ->
  (length sealed < 48 ->
     SealedBox.decrypt {| SealedBox._pk := pk; SealedBox._sk := Some sk |}
       sealed = Raise MalformedMessage) /\
  (48 <= length sealed ->
     SealedBox.decrypt {| SealedBox._pk := pk; SealedBox._sk := Some sk |}
       sealed =
     match crypto_unlock_aead
             (derive_shared_secret skb (firstn 32 sealed)) (zeros 24)
             (firstn 16 (skipn 32 sealed)) [] (skipn 16 (skipn 32 sealed))
     with
     | Some plaintext => Ok plaintext
     | None => Raise AuthenticationFailed
     end) /\
  (forall e,
     SealedBox.decrypt {| SealedBox._pk := pk; SealedBox._sk := Some sk |}
       sealed = Raise e -> is_CryptoError e = true).
Proof.
  intros Hsk Hlen.
  apply PrivateKey_init_inv in Hsk. destruct Hsk as [Hskb ->].
  rewrite SealedBox_decrypt_eq by assumption.
  assert (Hshort : length sealed < 48 ->
            SecretBox.decrypt
              {| SecretBox._key :=
                   derive_shared_secret skb (firstn 32 sealed) |}
              (Ciphertext (skipn 32 sealed)) (Some (zeros 24)) [] =
            Raise MalformedMessage).
  { intros H. apply SecretBox_decrypt_short. rewrite length_skipn. lia. }
  assert (Hlong : 48 <= length sealed ->
            SecretBox.decrypt
              {| SecretBox._key :=
                   derive_shared_secret skb (firstn 32 sealed) |}
              (Ciphertext (skipn 32 sealed)) (Some (zeros 24)) [] =
            match crypto_unlock_aead
                    (derive_shared_secret skb (firstn 32 sealed)) (zeros 24)
                    (firstn 16 (skipn 32 sealed)) []
                    (skipn 16 (skipn 32 sealed))
            with
            | Some plaintext => Ok plaintext
            | None => Raise AuthenticationFailed
            end).
  { intros H. apply SecretBox_decrypt_eq.
    - apply derive_shared_secret_length; [exact Hskb|].
      rewrite length_firstn. lia.
    - apply zeros_length.
    - rewrite length_skipn. lia. }
  split; [exact Hshort|]. split; [exact Hlong|].
  intros e He. destruct (Nat.lt_ge_cases (length sealed) 48) as [H|H].
  - rewrite (Hshort H) in He. inversion He. reflexivity.
  - rewrite (Hlong H) in He.
    destruct (crypto_unlock_aead _ _ _ _ _); inversion He. reflexivity.
Qed.

Lemma sealed_box_decrypt_long_input_witness :
  SealedBox.decrypt (lib := Toy.lib)
    {| SealedBox._pk := {| PublicKey._pk := zeros 32 |};
       SealedBox._sk := Some {| PrivateKey._sk := repeat x05 32 |} |}
    (zeros 40) = Raise MalformedMessage.
Proof.
  apply (@sealed_box_decrypt_long_input Toy.lib ToyFacts.lib_ok
           (repeat x05 32) (zeros 40) _ {| PublicKey._pk := zeros 32 |}
           eq_refl).
  - vm_compute. lia.
  - vm_compute. lia.
Defined.

(** ** What [tests/test_secret.py] asserts of a [SecretBox] *)

(** X11.  When no nonce is given, [encrypt] draws the next 24 bytes of the
    CSPRNG as the nonce and embeds it, and [decrypt] of the returned
    message, with no nonce argument, gives the plaintext back: for every
    32-byte key, plaintext, associated data and state of the CSPRNG. *)
Theorem secret_box_generated_nonce_round_trip {lib : Monocypher}
    {ok : MonocypherOk lib} (k p a : bytes) (g : rng) :
  length k = 32 ->
  exists (box : SecretBox.t) (enc : EncryptedMessage.t),
    SecretBox.init k = Ok box /\
    SecretBox.encrypt box p None a g = (Ok enc, advance 24 g) /\
    EncryptedMessage.nonce enc = Some (draw 24 g) /\
    SecretBox.decrypt box (Message enc) None a = Ok p.
Proof.
  intros Hk.
  exists {| SecretBox._key := k |}.
  exists (EncryptedMessage.from_parts (draw 24 g)
            (fst (crypto_lock_aead k (draw 24 g) a p))
            (snd (crypto_lock_aead k (draw 24 g) a p))).
  split; [now apply SecretBox_init_ok|].
  split; [now apply SecretBox_encrypt_random_nonce|].
  split; [reflexivity|].
  rewrite SecretBox_decrypt_message with (n := draw 24 g) by reflexivity.
  apply SecretBox_decrypt_locked; [exact Hk|apply draw_length].
Qed.

Lemma secret_box_generated_nonce_round_trip_witness :
  exists (box : SecretBox.t) (enc : EncryptedMessage.t),
    SecretBox.init (repeat x07 32) = Ok box /\
    SecretBox.encrypt (lib := Toy.lib) box [x61; x62; x63] None []
      Toy.tape = (Ok enc, advance 24 Toy.tape) /\
    SecretBox.decrypt (lib := Toy.lib) box (Message enc) None [] =
      Ok [x61; x62; x63].
Proof.
  destruct (@secret_box_generated_nonce_round_trip Toy.lib ToyFacts.lib_ok
              (repeat x07 32) [x61; x62; x63] [] Toy.tape eq_refl)
    as [box [enc [Hbox [Henc [_ Hdec]]]]].
  exists box, enc. split; [exact Hbox|]. split; [exact Henc|exact Hdec].
Defined.

(** X12.  The parts of an encrypted message: for every 32-byte key, message
    and 24-byte nonce, [SecretBox(key).encode()] is the key, and the
    message [encrypt] returns carries the given nonce, a detached MAC of
    [MAC_SIZE] bytes, a detached ciphertext as long as the plaintext, and
    a ciphertext of [MAC_SIZE + len(msg)] bytes. *)
Theorem encrypted_message_parts {lib : Monocypher} {ok : MonocypherOk lib}
    (key msg nonce : bytes) (g : rng) :
  length key = 32 -> length nonce = 24 ->
  exists (box : SecretBox.t) (m : EncryptedMessage.t),
    SecretBox.init key = Ok box /\ SecretBox.encode box = key /\
    SecretBox.encrypt box msg (Some nonce) [] g = (Ok m, g) /\
    EncryptedMessage.nonce m = Some nonce /\
    length (EncryptedMessage.ciphertext m) =
      SecretBox.MAC_SIZE + length msg /\
    length (EncryptedMessage.detached_mac m) = SecretBox.MAC_SIZE /\
    length (EncryptedMessage.detached_ciphertext m) = length msg.
Proof.
  intros Hk Hn.
  exists {| SecretBox._key := key |}.
  exists (EncryptedMessage.from_parts nonce
            (fst (crypto_lock_aead key nonce [] msg))
            (snd (crypto_lock_aead key nonce [] msg))).
  split; [now apply SecretBox_init_ok|]. split; [reflexivity|].
  split; [now apply SecretBox_encrypt_eq|]. split; [reflexivity|].
  unfold EncryptedMessage.ciphertext, EncryptedMessage.from_parts,
    SecretBox.MAC_SIZE.
  cbn [EncryptedMessage.detached_mac EncryptedMessage.detached_ciphertext].
  rewrite length_app, lock_mac_length, lock_text_length. auto.
Qed.

Lemma encrypted_message_parts_witness :
  exists (box : SecretBox.t) (m : EncryptedMessage.t),
    SecretBox.init (repeat x07 32) = Ok box /\
    SecretBox.encrypt (lib := Toy.lib) box [x61; x62; x63]
      (Some (zeros 24)) [] Toy.tape = (Ok m, Toy.tape) /\
    length (EncryptedMessage.ciphertext m) = 16 + 3.
Proof.
  destruct (@encrypted_message_parts Toy.lib ToyFacts.lib_ok
              (repeat x07 32) [x61; x62; x63] (zeros 24) Toy.tape
              eq_refl eq_refl)
    as [box [m [Hbox [_ [Henc [_ [Hlen _]]]]]]].
  exists box, m. split; [exact Hbox|]. split; [exact Henc|exact Hlen].
Defined.

(** X13.  A ciphertext without its MAC does not decrypt: for a message
    shorter than [MAC_SIZE] bytes, [decrypt] of the detached ciphertext
    alone, with the right nonce, raises [MalformedMessage], a
    [CryptoError], whatever the primitive would have answered. *)
Theorem decrypt_without_mac {lib : Monocypher} {ok : MonocypherOk lib}
    (key msg nonce : bytes) (g : rng) (box : SecretBox.t)
    (m : EncryptedMessage.t) :
  SecretBox.init key = Ok box ->
  SecretBox.encrypt box msg (Some nonce) [] g = (Ok m, g) ->
  length msg < SecretBox.MAC_SIZE ->
  SecretBox.decrypt box
    (Ciphertext (EncryptedMessage.detached_ciphertext m)) (Some nonce) [] =
  Raise MalformedMessage /\
  is_CryptoError MalformedMessage = true.
Proof.
  intros Hbox Henc Hlen. split; [|reflexivity].
  apply SecretBox_decrypt_short.
  unfold SecretBox.init in Hbox.
  destruct (utils.ensure_bytes_with_length "key" key SecretBox.KEY_SIZE)
    as [u|e] eqn:Ek; cbn [bind] in Hbox; [|discriminate].
  inversion Hbox; subst box.
  apply ensure_bytes_with_length_inv in Ek. unfold SecretBox.KEY_SIZE in Ek.
  destruct (Nat.eq_dec (length nonce) 24) as [En|En].
  - rewrite SecretBox_encrypt_eq in Henc by assumption.
    inversion Henc; subst m.
    cbn [EncryptedMessage.from_parts EncryptedMessage.detached_ciphertext].
    rewrite lock_text_length. exact Hlen.
  - unfold SecretBox.encrypt, mbind, mret, lift, crypto_aead.crypto_lock
      in Henc. cbn [SecretBox._key] in Henc.
    rewrite ensure_bytes_with_length_ok in Henc by exact Ek.
    rewrite ensure_bytes_with_length_raise in Henc by exact En.
    discriminate.
Qed.

Lemma decrypt_without_mac_witness :
  SecretBox.decrypt (lib := Toy.lib) {| SecretBox._key := repeat x07 32 |}
    (Ciphertext [x66; x65; x64; x63; x62; x61]) (Some (zeros 24)) [] =
  Raise MalformedMessage.
Proof.
  apply (@decrypt_without_mac Toy.lib ToyFacts.lib_ok (repeat x07 32)
           [x61; x62; x63; x64; x65; x66] (zeros 24) Toy.tape
           {| SecretBox._key := repeat x07 32 |} _ eq_refl eq_refl).
  vm_compute. lia.
Defined.
